(** * Authentication, permission, department-closure and content-filter core

    A shallow embedding of the decision logic of
    - [core/dependency.py]      ([AuthControl.is_authed], [PermissionControl.has_permission]),
    - [utils/jwt.py]            (token issue / verify),
    - [api/v1/base/base.py]     ([refresh_access_token]),
    - [repositories/dept.py]    (closure-table maintenance),
    - [utils/sensitive_word_filter.py] ([contains_sensitive_word]),
    together with the properties stated about them.

    Strings are sequences of single-byte characters.  Python integers are
    [Z].  Database tables are explicit values threaded through the
    operations; a raised exception is a constructor of the result type. *)

From Stdlib Require Import ZArith Ascii String List Bool Lia.
From stdpp Require Import base option list gmap strings.

Local Open Scope string_scope.
Local Open Scope list_scope.

(* ===================================================================== *)
(** * The fragment of Python's [re] used by the permission check          *)
(* ===================================================================== *)

Module Re.

(** A pattern without groups is an alternation of branches; a branch is a
    sequence of items; an item is an anchor or a one-character atom under a
    greedy quantifier. *)
Inductive atom :=
| ALit (c : ascii)                              (* ordinary character *)
| AAny                                          (* [.] : anything but a newline *)
| ASet (neg : bool) (ranges : list (ascii * ascii)).  (* [[...]] / [[^...]] *)

Inductive quant := QOne | QStar | QPlus | QOpt.

Inductive item :=
| IAtom (a : atom) (q : quant)
| IBol                                          (* [^] *)
| IEol.                                         (* [$] *)

Definition branch := list item.
Definition regex := list branch.

Definition newline : ascii := "010"%char.

Definition in_range (c : ascii) (r : ascii * ascii) : bool :=
  (N.leb (N_of_ascii (fst r)) (N_of_ascii c)
   && N.leb (N_of_ascii c) (N_of_ascii (snd r)))%bool.

Definition atom_ok (a : atom) (c : ascii) : bool :=
  match a with
  | ALit d => Ascii.eqb c d
  | AAny => negb (Ascii.eqb c newline)
  | ASet neg rs => xorb neg (existsb (in_range c) rs)
  end.

(** [$] without MULTILINE: at the end of the subject, or just before a
    newline that is its last character. *)
Definition at_eol (s : list ascii) : bool :=
  match s with
  | [] => true
  | c :: [] => Ascii.eqb c newline
  | _ => false
  end.

(** Backtracking match of a branch against a prefix of [s].  [bol] tells
    whether the current position is the start of the subject. *)
Fixpoint match_items (its : list item) (bol : bool) (s : list ascii) : bool :=
  match its with
  | [] => true
  | IBol :: rest => bol && match_items rest bol s
  | IEol :: rest => at_eol s && match_items rest bol s
  | IAtom a q :: rest =>
      let star :=
        fix star (b : bool) (t : list ascii) : bool :=
          match_items rest b t
          || match t with
             | c :: t' => atom_ok a c && star false t'
             | [] => false
             end in
      match q with
      | QOne =>
          match s with
          | c :: s' => atom_ok a c && match_items rest false s'
          | [] => false
          end
      | QOpt =>
          match s with
          | c :: s' => atom_ok a c && match_items rest false s'
          | [] => false
          end || match_items rest bol s
      | QStar => star bol s
      | QPlus =>
          match s with
          | c :: s' => atom_ok a c && star false s'
          | [] => false
          end
      end
  end.

(** ** Pattern syntax *)

Inductive token :=
| TAtom (a : atom)
| TQuant (q : quant)
| TBol
| TEol
| TBar.

Inductive lex_state :=
| LNormal
| LEsc                                              (* after a backslash *)
| LSetOpen                                          (* after [[] *)
| LSetNone (neg : bool) (acc : list (ascii * ascii))  (* expecting a member *)
| LSetPend (neg : bool) (acc : list (ascii * ascii)) (p : ascii)
| LSetDash (neg : bool) (acc : list (ascii * ascii)) (p : ascii).

Definition is_digit (c : ascii) : bool := in_range c ("0"%char, "9"%char).

Definition is_alnum (c : ascii) : bool :=
  is_digit c || in_range c ("a"%char, "z"%char) || in_range c ("A"%char, "Z"%char).

Fixpoint skip_digits (s : list ascii) : list ascii :=
  match s with
  | c :: s' => if is_digit c then skip_digits s' else s
  | [] => []
  end.

(** After a [{]: does [digits [, digits] }] follow (a counted repetition)?
    A [{] directly followed by [}] is an ordinary character. *)
Definition brace_is_quant (s : list ascii) : bool :=
  match s with
  | "}"%char :: _ => false
  | _ =>
      match skip_digits s with
      | ","%char :: s1 =>
          match skip_digits s1 with
          | "}"%char :: _ => true
          | _ => false
          end
      | "}"%char :: _ => true
      | _ => false
      end
  end.

(** One member character [c] read while no member is pending. *)
Definition set_member (neg : bool) (acc : list (ascii * ascii)) (c : ascii)
  : option (lex_state * list token) :=
  if Ascii.eqb c "]"%char then
    match acc with
    | [] => Some (LSetPend neg acc c, [])
    | _ => Some (LNormal, [TAtom (ASet neg (rev acc))])
    end
  else if Ascii.eqb c "\"%char then None
  else Some (LSetPend neg acc c, []).

(** One lexer step; [None] when the pattern leaves the modelled fragment
    (groups, class escapes, counted or lazy repetition) or is rejected by
    [re] (bad character range). *)
Definition lex_step (st : lex_state) (c : ascii) (rest : list ascii)
  : option (lex_state * list token) :=
  match st with
  | LNormal =>
      if Ascii.eqb c "." then Some (LNormal, [TAtom AAny])
      else if Ascii.eqb c "^" then Some (LNormal, [TBol])
      else if Ascii.eqb c "$" then Some (LNormal, [TEol])
      else if Ascii.eqb c "|" then Some (LNormal, [TBar])
      else if Ascii.eqb c "*" then Some (LNormal, [TQuant QStar])
      else if Ascii.eqb c "+" then Some (LNormal, [TQuant QPlus])
      else if Ascii.eqb c "?" then Some (LNormal, [TQuant QOpt])
      else if Ascii.eqb c "(" then None
      else if Ascii.eqb c ")" then None
      else if Ascii.eqb c "\" then Some (LEsc, [])
      else if Ascii.eqb c "[" then Some (LSetOpen, [])
      else if Ascii.eqb c "{" then
        if brace_is_quant rest then None else Some (LNormal, [TAtom (ALit c)])
      else Some (LNormal, [TAtom (ALit c)])
  | LEsc => if is_alnum c then None else Some (LNormal, [TAtom (ALit c)])
  | LSetOpen =>
      if Ascii.eqb c "^" then Some (LSetNone true [], [])
      else set_member false [] c
  | LSetNone neg acc => set_member neg acc c
  | LSetPend neg acc p =>
      if Ascii.eqb c "-" then Some (LSetDash neg acc p, [])
      else set_member neg ((p, p) :: acc) c
  | LSetDash neg acc p =>
      if Ascii.eqb c "]" then
        Some (LNormal, [TAtom (ASet neg (rev (("-"%char, "-"%char) :: (p, p) :: acc)))])
      else if Ascii.eqb c "\" then None
      else if N.leb (N_of_ascii p) (N_of_ascii c)
           then Some (LSetNone neg ((p, c) :: acc), [])
           else None
  end.

Fixpoint lex (st : lex_state) (s : list ascii) : option (list token) :=
  match s with
  | [] => match st with LNormal => Some [] | _ => None end
  | c :: rest =>
      match lex_step st c rest with
      | Some (st', out) =>
          match lex st' rest with
          | Some ts => Some (out ++ ts)
          | None => None
          end
      | None => None
      end
  end.

(** Quantifiers attach to the atom just before them; a quantifier with
    nothing to repeat, or following another quantifier, ends the parse. *)
Fixpoint parse (ts : list token) (cur : branch) (done : regex) : option regex :=
  match ts with
  | [] => Some (rev (rev cur :: done))
  | TBar :: rest => parse rest [] (rev cur :: done)
  | TBol :: rest =>
      match rest with
      | TQuant _ :: _ => None
      | _ => parse rest (IBol :: cur) done
      end
  | TEol :: rest =>
      match rest with
      | TQuant _ :: _ => None
      | _ => parse rest (IEol :: cur) done
      end
  | TQuant _ :: _ => None
  | TAtom a :: rest =>
      match rest with
      | TQuant q :: rest' =>
          match rest' with
          | TQuant _ :: _ => None
          | _ => parse rest' (IAtom a q :: cur) done
          end
      | _ => parse rest (IAtom a QOne :: cur) done
      end
  end.

Definition compile (pattern : string) : option regex :=
  match lex LNormal (list_ascii_of_string pattern) with
  | Some ts => parse ts [] []
  | None => None
  end.

(** [re.match(pattern, s)]: some branch matches a prefix of [s] starting
    at position 0.  [None]: the pattern could not be compiled. *)
Definition re_match (pattern s : string) : option bool :=
  match compile pattern with
  | Some r => Some (existsb (fun b => match_items b true (list_ascii_of_string s)) r)
  | None => None
  end.

(** [re.sub(r"\{[^}]+\}", r"[^/]+", s)]: every leftmost, non-overlapping
    occurrence of an opening brace, one or more characters other than a
    closing brace, and a closing brace is replaced.  [open] holds, in
    reverse, the characters read since a still unclosed [{]. *)
Definition wildcard : list ascii := list_ascii_of_string "[^/]+".

Fixpoint sub_go (open : option (list ascii)) (s : list ascii) : list ascii :=
  match s with
  | [] =>
      match open with
      | None => []
      | Some buf => "{"%char :: rev buf
      end
  | c :: rest =>
      match open with
      | None =>
          if Ascii.eqb c "{" then sub_go (Some []) rest else c :: sub_go None rest
      | Some buf =>
          if Ascii.eqb c "}" then
            match buf with
            | [] => "{"%char :: "}"%char :: sub_go None rest
            | _ => wildcard ++ sub_go None rest
            end
          else sub_go (Some (c :: buf)) rest
      end
  end.

Definition sub_placeholders (s : string) : string :=
  string_of_list_ascii (sub_go None (list_ascii_of_string s)).

End Re.

(* ===================================================================== *)
(** * Data model                                                          *)
(* ===================================================================== *)

(** Modelled from the spec: [models/enums.py] (the [MethodType] enumeration)
    is not among the sources.  The spec treats the method of an Api row as
    a value compared for exact equality with the request method, so a row
    carries the method's string value. *)
Record Api := { api_method : string; api_path : string }.

(** The many-to-many relations [Role.apis] and [User.roles] are carried by
    the rows themselves, in the order the queries return them. *)
Record Role := { role_name : string; role_apis : list Api }.

Record User := {
  user_id : Z;
  username : string;
  is_active : bool;
  is_superuser : bool;
  roles : list Role
}.

Local Open Scope Z_scope.

(* ===================================================================== *)
(** * Token codec ([utils/jwt.py] over PyJWT)                             *)
(* ===================================================================== *)

Module Jwt.

Record Settings := {
  SECRET_KEY : string;
  JWT_ALGORITHM : string;
  JWT_ACCESS_TOKEN_EXPIRE_MINUTES : Z;
  JWT_REFRESH_TOKEN_EXPIRE_DAYS : Z
}.

(** Values held by a payload dictionary.  A [datetime] is a count of
    microseconds since the epoch, the resolution of [datetime.now]. *)
Inductive pyval :=
| PInt (z : Z)
| PStr (s : string)
| PDatetime (us : Z)
| PNone.


(** [schemas/login.py] *)
Record JWTPayload := { p_user_id : Z; p_exp : Z; p_token_type : string }.

Definition us_per_second : Z := 1000000.
Definition timedelta_minutes (m : Z) : Z := m * 60 * us_per_second.
Definition timedelta_days (d : Z) : Z := d * 86400 * us_per_second.

(** [timegm(dt.utctimetuple())]: whole seconds, the microseconds dropped. *)
Definition timegm (dt : Z) : Z := dt / us_per_second.

Definition model_dump (p : JWTPayload) : gmap string pyval :=
  <["token_type" := PStr (p_token_type p)]>
    (<["exp" := PDatetime (p_exp p)]>
       (<["user_id" := PInt (p_user_id p)]> ∅)).

(** A compact token, seen as its three decoded segments; anything else a
    client may send is [Garbage]. *)
Inductive token :=
| Compact (alg : string) (claims : gmap string pyval) (signature : string)
| Garbage (raw : string).

Inductive decode_result :=
| Decoded (claims : gmap string pyval)
| DecodeError                  (* malformed token, bad signature, bad [exp] *)
| ExpiredSignatureError
| InvalidAlgorithmError.

Inductive verify_result :=
| Verified (p : JWTPayload)
| RaiseExpiredSignatureError   (* "Token has expired" *)
| RaiseInvalidTokenError       (* "Invalid token" *)
| RaiseValidationError.        (* pydantic rejects the payload *)

Section Codec.

(** The keyed signature over header and claims; nothing is assumed of it. *)
Variable sign : string -> string -> gmap string pyval -> string.
Variable settings : Settings.

Definition to_timestamp (v : pyval) : pyval :=
  match v with
  | PDatetime us => PInt (timegm us)
  | _ => v
  end.

(** [jwt.encode]: datetimes under [exp], [iat], [nbf] become integer
    timestamps, then header and claims are signed. *)
Definition encode_claims (payload : gmap string pyval) : gmap string pyval :=
  alter to_timestamp "nbf" (alter to_timestamp "iat" (alter to_timestamp "exp" payload)).

Definition encode (payload : gmap string pyval) (key alg : string) : token :=
  let claims := encode_claims payload in
  Compact alg claims (sign key alg claims).

(** [jwt.decode] at clock reading [now]: the header algorithm must be the
    accepted one, the signature must be the one [key] produces, and an
    [exp] claim must be an integer lying in the future.  The claims in
    view are those the issuing functions write: PyJWT also converts an
    [exp] that is not an integer with [int] and validates [nbf], [iat] and
    [aud] when they are present, which is left out, so that what is stated
    of [decode] is stated for tokens carrying the claims of an issued
    token. *)
Definition decode (now : Z) (t : token) (key alg : string) : decode_result :=
  match t with
  | Garbage _ => DecodeError
  | Compact a claims sig =>
      if negb (String.eqb a alg) then InvalidAlgorithmError
      else if negb (String.eqb sig (sign key a claims)) then DecodeError
      else
        match claims !! "exp" with
        | Some (PInt e) =>
            if e * us_per_second <=? now then ExpiredSignatureError else Decoded claims
        | Some _ => DecodeError
        | None => Decoded claims
        end
  end.

Definition create_access_token (data : JWTPayload) : token :=
  let payload := <["token_type" := PStr "access"]> (model_dump data) in
  encode payload (SECRET_KEY settings) (JWT_ALGORITHM settings).

Definition create_refresh_token (now : Z) (user_id : Z) : token :=
  let expire := now + timedelta_days (JWT_REFRESH_TOKEN_EXPIRE_DAYS settings) in
  let payload := {| p_user_id := user_id; p_exp := expire; p_token_type := "refresh" |} in
  let payload_dict := <["token_type" := PStr "refresh"]> (model_dump payload) in
  encode payload_dict (SECRET_KEY settings) (JWT_ALGORITHM settings).

(** Construction of a [JWTPayload] from the decoded claims, for claims
    typed as the issuing functions type them: an integer [user_id], an
    integer [exp], a string [token_type].  pydantic also coerces other
    JSON values (a numeric string, say), which is left out: for them the
    answer here is the validation error, and nothing is stated of
    them. *)
Definition payload_of_claims (c : gmap string pyval) : option JWTPayload :=
  match c !! "user_id", c !! "exp" with
  | Some (PInt uid), Some (PInt e) =>
      match c !! "token_type" with
      | Some (PStr kind) =>
          Some {| p_user_id := uid; p_exp := e * us_per_second; p_token_type := kind |}
      | None =>
          Some {| p_user_id := uid; p_exp := e * us_per_second; p_token_type := "access" |}
      | Some _ => None
      end
  | _, _ => None
  end.

Definition pyval_eqb (a b : pyval) : bool :=
  match a, b with
  | PInt x, PInt y => x =? y
  | PStr x, PStr y => String.eqb x y
  | PDatetime x, PDatetime y => x =? y
  | PNone, PNone => true
  | _, _ => false
  end.

(** [dict.get]: a missing key reads as [None]. *)
Definition dict_get (c : gmap string pyval) (k : string) : pyval := default PNone (c !! k).

Definition verify_token (now : Z) (t : token) (token_type : string) : verify_result :=
  match decode now t (SECRET_KEY settings) (JWT_ALGORITHM settings) with
  | Decoded payload =>
      if negb (pyval_eqb (dict_get payload "token_type") (PStr token_type))
      then RaiseInvalidTokenError
      else
        match payload_of_claims payload with
        | Some p => Verified p
        | None => RaiseValidationError
        end
  | ExpiredSignatureError => RaiseExpiredSignatureError
  | DecodeError | InvalidAlgorithmError => RaiseInvalidTokenError
  end.

(** The clock is read once for each token: [now_access <= now_refresh]. *)
Definition create_token_pair (now_access now_refresh : Z) (user_id : Z) : token * token :=
  let access_expire :=
    now_access + timedelta_minutes (JWT_ACCESS_TOKEN_EXPIRE_MINUTES settings) in
  let access_payload :=
    {| p_user_id := user_id; p_exp := access_expire; p_token_type := "access" |} in
  let access_token := create_access_token access_payload in
  let refresh_token := create_refresh_token now_refresh user_id in
  (access_token, refresh_token).

End Codec.

End Jwt.

(* ===================================================================== *)
(** * Request authentication and token refresh                            *)
(* ===================================================================== *)

Module Auth.

Import Jwt.

Inductive auth_result :=
| Authed (user : User) (ctx_user_id : Z)        (* user returned, CTX_USER_ID set *)
| AuthRaise (status_code : Z) (detail : string).  (* HTTPException *)

(** [schemas/login.py] *)
Record TokenRefreshOut := {
  out_access_token : token;
  out_refresh_token : token;
  out_token_type : string;
  out_expires_in : Z
}.

(** Modelled from the spec: [schemas/base.py] ([Success], [Fail]) is not
    among the sources; the spec describes the unified envelope
    [{code, msg, data}], and [Fail(code=401, ...)] is an Unauthorized
    outcome.  The third constructor is a raised [HTTPException]. *)
Inductive response :=
| Success (data : TokenRefreshOut)
| Fail (code : Z) (msg : string)
| RaiseHTTPException (status_code : Z) (detail : string).

Inductive get_result :=
| GetReturns (row : option User)
| GetRaises.                                     (* DoesNotExist *)

(** Modelled from the spec: [core/crud.py] ([CRUDBase.get]) and
    [repositories/user.py] are not among the sources.  The spec has the
    refresh flow re-check that the user still exists; whether an absent row
    is reported by raising or by returning nothing is left to
    [raise_if_absent], and the handler is written for both. *)
Definition user_repository_get (raise_if_absent : bool) (users : gmap Z User) (id : Z)
  : get_result :=
  match users !! id with
  | Some u => GetReturns (Some u)
  | None => if raise_if_absent then GetRaises else GetReturns None
  end.

Section Handlers.

Variable sign : string -> string -> gmap string pyval -> string.
Variable settings : Settings.

(** [AuthControl.is_authed].  [credentials] is the bearer string handed
    over by [HTTPBearer], [None] when the header is absent.  The
    [user_id] claim in view is the integer the issuing functions write; a
    claim typed otherwise goes through the conversions of the ORM and of
    [int], which are left out: the answer here is then the 401 of an
    unknown user, and nothing is stated of such tokens. *)
Definition is_authed (users : gmap Z User) (now : Z) (credentials : option token)
  : auth_result :=
  match credentials with
  | None => AuthRaise 401 "Authentication failed"
  | Some (Garbage EmptyString) => AuthRaise 401 "Authentication failed"
  | Some t =>
      match decode sign now t (SECRET_KEY settings) (JWT_ALGORITHM settings) with
      | Decoded decode_data =>
          match dict_get decode_data "user_id" with
          | PInt uid =>
              match users !! uid with
              | Some user => Authed user uid
              | None => AuthRaise 401 "Authentication failed"
              end
          | _ => AuthRaise 401 "Authentication failed"
          end
      | DecodeError => AuthRaise 401 "Invalid token"
      | ExpiredSignatureError => AuthRaise 401 "Login has expired"
      | InvalidAlgorithmError => AuthRaise 401 "Authentication failed"
      end
  end.

(** [refresh_access_token].  [now] is the clock when the token is
    verified, [now_access] and [now_refresh] when the new pair is made. *)
Definition refresh_access_token (raise_if_absent : bool) (users : gmap Z User)
    (now now_access now_refresh : Z) (refresh_token : token) : response :=
  match verify_token sign settings now refresh_token "refresh" with
  | Verified payload =>
      match user_repository_get raise_if_absent users (p_user_id payload) with
      | GetReturns (Some user) =>
          if negb (is_active user) then
            Fail 401 "User does not exist or has been disabled"
          else
            let '(access_token, refresh_token') :=
              create_token_pair sign settings now_access now_refresh (user_id user) in
            Success {| out_access_token := access_token;
                       out_refresh_token := refresh_token';
                       out_token_type := "bearer";
                       out_expires_in := JWT_ACCESS_TOKEN_EXPIRE_MINUTES settings * 60 |}
      | GetReturns None => Fail 401 "User does not exist or has been disabled"
      | GetRaises => RaiseHTTPException 401 "Token is invalid or expired"
      end
  | _ => RaiseHTTPException 401 "Token is invalid or expired"
  end.

End Handlers.

(** The outcomes the error taxonomy calls Unauthorized. *)
Definition unauthorized (r : response) : Prop :=
  match r with
  | Success _ => False
  | Fail code _ => code = 401
  | RaiseHTTPException status _ => status = 401
  end.

End Auth.

(* ===================================================================== *)
(** * Permission check ([PermissionControl.has_permission])               *)
(* ===================================================================== *)

Module Permission.

Inductive outcome :=
| Allowed                                        (* returns None *)
| RaiseHTTP (status_code : Z) (detail : string)
| RaiseReError.   (* [re.error], or a pattern outside the modelled fragment *)

Definition not_bound_detail : string := "The user is not bound to a role".

Definition denied_detail (method path : string) : string :=
  "Permission denied method:" +:+ method +:+ " path:" +:+ path.

(** The loop over [permission_apis]. *)
Fixpoint check_permissions (method path : string) (permission_apis : list (string * string))
  : outcome :=
  match permission_apis with
  | [] => RaiseHTTP 403 (denied_detail method path)
  | (perm_method, perm_path) :: rest =>
      if String.eqb method perm_method then
        let pattern := Re.sub_placeholders perm_path in
        let pattern := "^" +:+ pattern +:+ "$" in
        match Re.re_match pattern path with
        | Some true => Allowed
        | Some false => check_permissions method path rest
        | None => RaiseReError
        end
      else check_permissions method path rest
  end.

Definition permission_apis_of (rs : list Role) : list (string * string) :=
  map (fun api => (api_method api, api_path api)) (concat (map role_apis rs)).

Definition has_permission (current_user : User) (method path : string) : outcome :=
  if is_superuser current_user then Allowed
  else
    let rs := roles current_user in
    match rs with
    | [] => RaiseHTTP 403 not_bound_detail
    | _ => check_permissions method path (permission_apis_of rs)
    end.

End Permission.

(* ===================================================================== *)
(** * Department hierarchy ([repositories/dept.py])                       *)
(* ===================================================================== *)

Module Dept.

(** [models/admin.py]: a [dept] row (its primary key is the key of the
    table) and a [deptclosure] row. *)
Record Dept := {
  name : string;
  desc : option string;
  is_deleted : bool;
  order : Z;
  parent_id : Z
}.

Record DeptClosure := { ancestor : Z; descendant : Z; level : Z }.

(** The two tables, and the next primary key the [dept] table hands out. *)
Record DB := {
  depts : gmap Z Dept;
  closure : list DeptClosure;
  next_id : Z
}.

(** Modelled from the spec: [schemas/depts.py] is not among the sources.
    A create request carries the fields of the new row; an update request
    carries the id and, for each field, the value sent ([None] when the
    field was not sent, so that [model_dump(exclude_unset=True)] leaves it
    out).  [u_parent_id] is what [obj_in.parent_id] reads, and
    [u_parent_sent] whether the request set it. *)
Record DeptCreate := { c_name : string; c_desc : option string; c_order : Z; c_parent_id : Z }.

Record DeptUpdate := {
  u_id : Z;
  u_name : option string;
  u_desc : option (option string);
  u_order : option Z;
  u_parent_id : Z;
  u_parent_sent : bool
}.

Inductive result (A : Type) :=
| Ok (a : A)
| DoesNotExist.          (* raised inside [@atomic]: nothing is written *)
Arguments Ok {A} a.
Arguments DoesNotExist {A}.

(** Modelled from the spec: [core/crud.py] ([CRUDBase.get]) is not among
    the sources; a referenced department that is absent fails with
    NotFound. *)
Definition get (db : DB) (id : Z) : result Dept :=
  match depts db !! id with
  | Some d => Ok d
  | None => DoesNotExist
  end.

(** Modelled from the spec: [core/crud.py] ([CRUDBase.create]) is not among
    the sources; the new row is inserted under the next primary key, with
    the column default [is_deleted = False].  This is the write as it is
    when the database takes the row: the column constraints of
    [models/admin.py] ([name] unique and of at most 20 characters) make it
    raise otherwise, inside [@atomic], and that outcome is not among those
    of [result]: [Ok] reads as the state the call leaves when the
    database takes the row. *)
Definition create (db : DB) (obj_in : DeptCreate) : DB * (Z * Dept) :=
  let d := {| name := c_name obj_in; desc := c_desc obj_in; is_deleted := false;
              order := c_order obj_in; parent_id := c_parent_id obj_in |} in
  let id := next_id db in
  ({| depts := <[id := d]> (depts db); closure := closure db; next_id := id + 1 |}, (id, d)).

(** [update_dept_closure(obj)], for the row [obj] with primary key [id]. *)
Definition update_dept_closure (db : DB) (id : Z) (obj : Dept) : DB :=
  let parent_depts := filter (fun r => descendant r = parent_id obj) (closure db) in
  let dept_closure_objs :=
    map (fun item => {| ancestor := ancestor item; descendant := id;
                        level := level item + 1 |}) parent_depts
    ++ [ {| ancestor := id; descendant := id; level := 0 |} ] in
  {| depts := depts db; closure := closure db ++ dept_closure_objs; next_id := next_id db |}.

Definition create_dept (db : DB) (obj_in : DeptCreate) : result DB :=
  let parent_ok :=
    if decide (c_parent_id obj_in <> 0)
    then match get db (c_parent_id obj_in) with Ok _ => true | DoesNotExist => false end
    else true in
  if parent_ok then
    let '(db1, (id, new_obj)) := create db obj_in in
    Ok (update_dept_closure db1 id new_obj)
  else DoesNotExist.

(** [update_from_dict] with the fields the request sent. *)
Definition update_from_dict (d : Dept) (obj_in : DeptUpdate) : Dept :=
  {| name := default (name d) (u_name obj_in);
     desc := default (desc d) (u_desc obj_in);
     is_deleted := is_deleted d;
     order := default (order d) (u_order obj_in);
     parent_id := if u_parent_sent obj_in then u_parent_id obj_in else parent_id d |}.

(** [update_dept]; [save()] is the write as it is when the database takes
    the row, as for [create]. *)
Definition update_dept (db : DB) (obj_in : DeptUpdate) : result DB :=
  match get db (u_id obj_in) with
  | DoesNotExist => DoesNotExist
  | Ok dept_obj =>
      let id := u_id obj_in in
      let db1 :=
        if decide (parent_id dept_obj <> u_parent_id obj_in) then
          let c1 := filter (fun r => ancestor r <> id) (closure db) in
          let c2 := filter (fun r => descendant r <> id) c1 in
          update_dept_closure
            {| depts := depts db; closure := c2; next_id := next_id db |} id dept_obj
        else db in
      let dept_obj' := update_from_dict dept_obj obj_in in
      Ok {| depts := <[id := dept_obj']> (depts db1);
            closure := closure db1; next_id := next_id db1 |}
  end.

Definition delete_dept (db : DB) (dept_id : Z) : result DB :=
  match get db dept_id with
  | DoesNotExist => DoesNotExist
  | Ok obj =>
      let obj' := {| name := name obj; desc := desc obj; is_deleted := true;
                     order := order obj; parent_id := parent_id obj |} in
      Ok {| depts := <[dept_id := obj']> (depts db);
            closure := filter (fun r => descendant r <> dept_id) (closure db);
            next_id := next_id db |}
  end.

End Dept.

(* ===================================================================== *)
(** * Sensitive-content filter ([utils/sensitive_word_filter.py])         *)
(* ===================================================================== *)

Module Filter.

Local Open Scope nat_scope.

(** The automaton as the dictionary it stores: key to value. *)
Record SensitiveWordFilter := {
  automaton : option (gmap string (nat * string));
  enabled : bool
}.

Section Text.

(** The two methods of [str] the module calls are parameters of the model,
    so that nothing is decided here about Unicode: [is_space c] is
    [c.isspace()] for one character, which is what [str.strip()] tests at
    both ends of a string, and [lower s] is [s.lower()]. *)
Variable is_space : ascii -> bool.
Variable lower : string -> string.

Fixpoint lstrip (s : list ascii) : list ascii :=
  match s with
  | c :: s' => if is_space c then lstrip s' else s
  | [] => []
  end.

Definition strip_chars (s : list ascii) : list ascii := rev (lstrip (rev (lstrip s))).

(** [s.strip()] *)
Definition strip (s : string) : string :=
  string_of_list_ascii (strip_chars (list_ascii_of_string s)).

(** The loop of [_build_automaton]: [add_word] replaces the value of a key
    that is already present. *)
Fixpoint add_words (idx : nat) (words : list string) (a : gmap string (nat * string))
  : gmap string (nat * string) :=
  match words with
  | [] => a
  | word :: rest =>
      let a' :=
        if String.eqb (strip word) EmptyString then a
        else <[lower (strip word) := (idx, strip word)]> a in
      add_words (S idx) rest a'
  end.

(** [_build_automaton] with [settings.SENSITIVE_WORDS = words]. *)
Definition _build_automaton (self : SensitiveWordFilter) (words : list string)
  : SensitiveWordFilter :=
  if negb (enabled self) then self
  else {| automaton := Some (add_words 0 words ∅); enabled := enabled self |}.

(** [__init__] with the two settings. *)
Definition __init__ (enable : bool) (words : list string) : SensitiveWordFilter :=
  _build_automaton {| automaton := None; enabled := enable |} words.

(** [automaton.iter(text)]: every occurrence of a key, by increasing end
    index and, at one end index, from the longest key to the shortest. *)
Definition matches_ending_at (a : gmap string (nat * string)) (t : list ascii) (e : nat)
  : list (nat * (nat * string)) :=
  omap (fun st => option_map (pair e)
                    (a !! string_of_list_ascii (take (S e - st) (drop st t))))
       (seq 0 (S e)).

Definition iter (a : gmap string (nat * string)) (text : string)
  : list (nat * (nat * string)) :=
  let t := list_ascii_of_string text in
  flat_map (matches_ending_at a t) (seq 0 (length t)).

Definition contains_sensitive_word (self : SensitiveWordFilter) (text : string)
  : bool * option string :=
  match automaton self with
  | None => (false, None)
  | Some a =>
      if negb (enabled self) || (size a =? 0) || String.eqb text EmptyString
      then (false, None)
      else
        let text_lower := lower text in
        match iter a text_lower with
        | (_, (_, original_word)) :: _ => (true, Some original_word)
        | [] => (false, None)
        end
  end.

End Text.

End Filter.

(* ===================================================================== *)
(** * Department tree ([DeptRepository.get_dept_tree])                    *)
(* ===================================================================== *)

Module DeptTree.

Import Dept.

Local Unset Elimination Schemes.

(** One dictionary of the result: the five fields and the children. *)
Inductive tree :=
| Node (id : Z) (name : string) (desc : option string) (order : Z) (parent_id : Z)
       (children : list tree).

Local Set Elimination Schemes.

Definition node_id (t : tree) : Z := match t with Node id _ _ _ _ _ => id end.
Definition node_parent_id (t : tree) : Z := match t with Node _ _ _ _ p _ => p end.
Definition children (t : tree) : list tree := match t with Node _ _ _ _ _ cs => cs end.

(** The helper [build_tree(parent_id)] over [all_depts], the rows the
    query returned (primary key and row), in the order it returned them.
    [depth] is the number of nested calls still allowed; [None] is the
    RecursionError raised when they are used up. *)
Fixpoint build_tree (depth : nat) (all_depts : list (Z * Dept)) (parent : Z)
  : option (list tree) :=
  match depth with
  | O => None
  | S depth' =>
      mapM (fun dept : Z * Dept =>
              match build_tree depth' all_depts (fst dept) with
              | Some cs =>
                  Some (Node (fst dept) (name (snd dept)) (desc (snd dept))
                          (order (snd dept)) (parent_id (snd dept)) cs)
              | None => None
              end)
           (filter (fun dept => parent_id (snd dept) = parent) all_depts)
  end.

(** [get_dept_tree]: the tree is built from the virtual root 0.  The
    query that precedes it (rows not soft-deleted, optionally filtered by
    name, ordered by [order]) is the database's; its result is
    [all_depts]. *)
Definition get_dept_tree (depth : nat) (all_depts : list (Z * Dept)) : option (list tree) :=
  build_tree depth all_depts 0.

End DeptTree.

(* ===================================================================== *)
(** * Text and stream filtering ([utils/sensitive_word_filter.py])        *)
(* ===================================================================== *)

Module FilterOps.

Import Filter.

Section Text.

(** [c.isspace()] and [s.lower()], as in the filter. *)
Variable is_space : ascii -> bool.
Variable lower : string -> string.

(** [filter_text]; [response_message] is [self.response_message], set in
    [__init__] from the settings. *)
Definition filter_text (self : SensitiveWordFilter) (response_message text : string)
  : string :=
  if String.eqb text EmptyString then text
  else
    let '(contains_sensitive, _) := contains_sensitive_word lower self text in
    if contains_sensitive then response_message else text.

(** What [json.loads] gives, as far as the filter looks into it: a JSON
    string, or another value with the text [str] makes of it. *)
Inductive json_value :=
| JString (s : string)
| JOther (as_str : string).

Inductive event :=
| EObject (fields : gmap string json_value)     (* a dict *)
| ENotObject.                                   (* string, number, list, ... *)

Inductive loads_result :=
| Loaded (event_data : event)
| JSONDecodeError
| OtherError.                                   (* any other exception *)

(** [text += event_data[key]] when the key is present: a value that is not
    a string raises TypeError ([None]). *)
Definition add_field (fields : gmap string json_value) (key : string) (text : string)
  : option string :=
  match fields !! key with
  | None => Some text
  | Some (JString s) => Some (text +:+ s)
  | Some (JOther _) => None
  end.

(** [text += str(event_data["content"])] when the key is present. *)
Definition add_content (fields : gmap string json_value) (text : string) : string :=
  match fields !! "content" with
  | None => text
  | Some (JString s) => text +:+ s
  | Some (JOther r) => text +:+ r
  end.

(** The text gathered from the fields [answer], [text] and [content]. *)
Definition text_to_check (fields : gmap string json_value) : option string :=
  match add_field fields "answer" EmptyString with
  | Some t1 =>
      match add_field fields "text" t1 with
      | Some t2 => Some (add_content fields t2)
      | None => None
      end
  | None => None
  end.

(** [chunk[len("data:"):].strip()] *)
Definition data_content (chunk : string) : string :=
  strip is_space (string_of_list_ascii (drop 5 (list_ascii_of_string chunk))).

Section Stream.

(** The JSON parser. *)
Variable json_loads : string -> loads_result.

(** [filter_streaming_chunk]: [None] blocks the chunk.  An exception other
    than [JSONDecodeError] is caught by the outer handler, which returns
    the chunk. *)
Definition filter_streaming_chunk (self : SensitiveWordFilter) (chunk : string)
  : option string :=
  if String.eqb chunk EmptyString || negb (enabled self) then Some chunk
  else if String.prefix "data:" chunk then
    let json_content_str := data_content chunk in
    if negb (String.eqb json_content_str EmptyString)
       && negb (String.eqb json_content_str "[DONE]") then
      match json_loads json_content_str with
      | Loaded (EObject fields) =>
          match text_to_check fields with
          | Some text =>
              if negb (String.eqb text EmptyString)
                 && fst (contains_sensitive_word lower self text)
              then None else Some chunk
          | None => Some chunk
          end
      | Loaded ENotObject => Some chunk
      | JSONDecodeError =>
          if fst (contains_sensitive_word lower self json_content_str)
          then None else Some chunk
      | OtherError => Some chunk
      end
    else Some chunk
  else Some chunk.

End Stream.

(** [reload_sensitive_words] with [settings.SENSITIVE_WORDS = words]: the
    filter after the call, and the value returned. *)
Definition reload_sensitive_words (self : SensitiveWordFilter) (words : list string)
  : SensitiveWordFilter * bool :=
  (_build_automaton is_space lower self words, true).

End Text.

End FilterOps.

(* ===================================================================== *)
(** * Environment file reader ([AdaptiveEnvConfig._read_file])            *)
(* ===================================================================== *)

Module EnvFile.

Import Filter.

Definition double_quote : ascii := "034"%char.
Definition single_quote : ascii := "039"%char.

Definition is_quote (c : ascii) : bool :=
  Ascii.eqb c double_quote || Ascii.eqb c single_quote.

Fixpoint lstrip_by (f : ascii -> bool) (s : list ascii) : list ascii :=
  match s with
  | c :: s' => if f c then lstrip_by f s' else s
  | [] => []
  end.

(** [s.strip(chars)] for the characters selected by [f]. *)
Definition strip_by (f : ascii -> bool) (s : list ascii) : list ascii :=
  rev (lstrip_by f (rev (lstrip_by f s))).

(** [line.split("=", 1)], when the line contains [=]. *)
Fixpoint split_eq (s : list ascii) : option (list ascii * list ascii) :=
  match s with
  | [] => None
  | c :: s' =>
      if Ascii.eqb c "=" then Some ([], s')
      else
        match split_eq s' with
        | Some (key, value) => Some (c :: key, value)
        | None => None
        end
  end.

Section Text.

(** [c.isspace()], as in the filter: what [strip()] removes. *)
Variable is_space : ascii -> bool.

(** The body of the loop over the lines: the assignment a line makes, if
    it makes one. *)
Definition parse_line (line : string) : option (string * string) :=
  let line := strip_chars is_space (list_ascii_of_string line) in
  match line with
  | "#"%char :: _ => None
  | _ =>
      match split_eq line with
      | Some (key, value) =>
          Some (string_of_list_ascii (strip_chars is_space key),
                string_of_list_ascii (strip_by is_quote (strip_chars is_space value)))
      | None => None
      end
  end.

(** [file_values] after the lines have been read in order. *)
Definition file_values (lines : list string) : gmap string string :=
  fold_left (fun values line =>
               match parse_line line with
               | Some (key, value) => <[key := value]> values
               | None => values
               end) lines ∅.

(** [_read_file]: the encodings are tried in order; [attempts] holds, for
    each, the lines read or [None] for a UnicodeDecodeError.  The result is
    [None] when the last error is raised. *)
Fixpoint _read_file (attempts : list (option (list string)))
  : option (gmap string string) :=
  match attempts with
  | [] => Some ∅
  | Some lines :: _ => Some (file_values lines)
  | None :: rest =>
      match rest with
      | [] => None
      | _ => _read_file rest
      end
  end.

End Text.

End EnvFile.

(* ===================================================================== *)
(** * Vocabulary of the statements, and concrete instances                *)
(* ===================================================================== *)

Section PermissionVocabulary.

Import Re Permission.

Definition lit (c : ascii) : item := IAtom (ALit c) QOne.

Definition not_slash : atom := ASet true [("/"%char, "/"%char)].

(** The grant of the running example, and the paths one segment below
    [/api/v1/items/]. *)
Definition items_grant : string * string := ("GET", "/api/v1/items/{id}").

Definition single_segment (seg : string) : Prop :=
  seg <> EmptyString /\ "/"%char ∉ list_ascii_of_string seg.

Definition under_items (path : string) : Prop :=
  exists seg, path = "/api/v1/items/" +:+ seg /\ single_segment seg.

Definition items_pattern : string :=
  "^" +:+ sub_placeholders (snd items_grant) +:+ "$".

Definition items_user : User :=
  {| user_id := 7; username := "reader"; is_active := true; is_superuser := false;
     roles := [ {| role_name := "items"; role_apis :=
                     [ {| api_method := "GET"; api_path := "/api/v1/items/{id}" |} ] |} ] |}.

Definition root_user : User :=
  {| user_id := 1; username := "admin"; is_active := true; is_superuser := true;
     roles := [] |}.

Definition roleless_user : User :=
  {| user_id := 9; username := "guest"; is_active := true; is_superuser := false;
     roles := [] |}.

End PermissionVocabulary.

Section TokenVocabulary.

Import Jwt Auth.

Variable sign : string -> string -> gmap string pyval -> string.
Variable settings : Settings.

(** The claims written for a payload [p] issued with kind [kind]. *)
Definition issued_claims (p : JWTPayload) (kind : string) : gmap string pyval :=
  encode_claims (<["token_type" := PStr kind]> (model_dump p)).

Definition issue (p : JWTPayload) (kind : string) : token :=
  encode sign (<["token_type" := PStr kind]> (model_dump p))
    (SECRET_KEY settings) (JWT_ALGORITHM settings).

Definition token_claim (t : token) (k : string) : option pyval :=
  match t with
  | Compact _ claims _ => claims !! k
  | Garbage _ => None
  end.

Definition access_exp (now_access : Z) : Z :=
  timegm (now_access + timedelta_minutes (JWT_ACCESS_TOKEN_EXPIRE_MINUTES settings))
  * us_per_second.

Definition refresh_exp (now_refresh : Z) : Z :=
  timegm (now_refresh + timedelta_days (JWT_REFRESH_TOKEN_EXPIRE_DAYS settings))
  * us_per_second.

Definition verification_fails (r : verify_result) : Prop :=
  r = RaiseInvalidTokenError \/ r = RaiseExpiredSignatureError.

End TokenVocabulary.

Section TokenInstances.

Import Jwt Auth.

(** Concrete instances: a constant signature, the default lifetimes. *)
Definition sign0 : string -> string -> gmap string Jwt.pyval -> string :=
  fun _ _ _ => "signature".

Definition settings0 : Jwt.Settings :=
  {| Jwt.SECRET_KEY := "0123456789abcdef0123456789abcdef";
     Jwt.JWT_ALGORITHM := "HS256";
     Jwt.JWT_ACCESS_TOKEN_EXPIRE_MINUTES := 60 * 4;
     Jwt.JWT_REFRESH_TOKEN_EXPIRE_DAYS := 7 |}.

Definition alice : User :=
  {| user_id := 1; username := "alice"; is_active := true; is_superuser := false;
     roles := [] |}.

Definition alice_disabled : User :=
  {| user_id := 1; username := "alice"; is_active := false; is_superuser := false;
     roles := [] |}.

End TokenInstances.

Section DeptVocabulary.

Import Dept.

Definition soft_deleted (d : Dept) : Dept :=
  {| name := name d; desc := desc d; is_deleted := true;
     order := order d; parent_id := parent_id d |}.

Definition root_dept (n : string) : DeptCreate :=
  {| c_name := n; c_desc := None; c_order := 0; c_parent_id := 0 |}.

Definition child_dept (n : string) (parent : Z) : DeptCreate :=
  {| c_name := n; c_desc := None; c_order := 0; c_parent_id := parent |}.

Definition empty_db : DB := {| depts := ∅; closure := []; next_id := 1 |}.

Definition and_then (r : result DB) (f : DB -> result DB) : result DB :=
  match r with
  | Ok db => f db
  | DoesNotExist => DoesNotExist
  end.

(** Departments P = 1 and Q = 2 at the root, C = 3 under P. *)
Definition three_depts : result DB :=
  and_then (create_dept empty_db (root_dept "P")) (fun db =>
  and_then (create_dept db (root_dept "Q")) (fun db =>
  create_dept db (child_dept "C" 1))).

Definition move_to (id parent : Z) : DeptUpdate :=
  {| u_id := id; u_name := None; u_desc := None; u_order := None;
     u_parent_id := parent; u_parent_sent := true |}.

Definition row (a d l : Z) : DeptClosure := {| ancestor := a; descendant := d; level := l |}.

Definition p_row : Dept :=
  {| name := "P"; desc := None; is_deleted := false; order := 0; parent_id := 0 |}.

Definition p_with_child_rows : DB :=
  {| depts := {[ 1 := p_row ]}; closure := [row 1 1 0; row 1 3 1; row 3 3 0]; next_id := 4 |}.

End DeptVocabulary.

Section FilterVocabulary.

Import Filter.

Variable is_space : ascii -> bool.

(** [t] occurs in [s] as a contiguous substring. *)
Definition occurs (t s : string) : Prop := exists pre post, s = pre +:+ t +:+ post.

(** A configured word that survives the blank test of the build loop. *)
Definition banned (words : list string) (w : string) : Prop :=
  w ∈ words /\ strip is_space w <> EmptyString.

(** [str.isspace] and [str.lower] on the characters below U+0100, for the
    instances: the blanks are 9 to 13, 28 to 32, U+0085 and U+00A0, and
    the capital letters are A to Z and U+00C0 to U+00DE without the
    multiplication sign U+00D7, each 32 below its small letter. *)
Definition latin1_isspace (c : ascii) : bool :=
  let n := N_of_ascii c in
  (N.leb 9 n && N.leb n 13) || (N.leb 28 n && N.leb n 32) || N.eqb n 133 || N.eqb n 160.

Definition latin1_lower_char (c : ascii) : ascii :=
  let n := N_of_ascii c in
  if (N.leb 65 n && N.leb n 90) || (N.leb 192 n && N.leb n 222 && negb (N.eqb n 215))
  then ascii_of_N (n + 32) else c.

Definition latin1_lower (s : string) : string :=
  string_of_list_ascii (map latin1_lower_char (list_ascii_of_string s)).

End FilterVocabulary.

Section GrantVocabulary.

Import Re Permission.

(** A granted path written the way routes are declared: literal text
    alternating with [{name}] placeholders. *)
Inductive piece :=
| Lit (text : list ascii)
| Hole (name : list ascii).

(** Characters that [re] reads as themselves. *)
Definition plain (c : ascii) : bool :=
  negb (existsb (Ascii.eqb c) (list_ascii_of_string ".^$*+?{}[]\|()")).

Definition piece_ok (p : piece) : Prop :=
  match p with
  | Lit text => forallb plain text = true
  | Hole name => name <> [] /\ "}"%char ∉ name
  end.

Definition render_piece (p : piece) : list ascii :=
  match p with
  | Lit text => text
  | Hole name => "{"%char :: name ++ ["}"%char]
  end.

Definition render (ps : list piece) : string :=
  string_of_list_ascii (concat (map render_piece ps)).

(** The paths a grant stands for: each literal piece is itself, each
    placeholder is one non-empty run without [/]; after the last piece the
    path ends, or ends with one newline. *)
Fixpoint fits (ps : list piece) (s : list ascii) : Prop :=
  match ps with
  | [] => s = [] \/ s = [newline]
  | Lit text :: ps' => exists s', s = text ++ s' /\ fits ps' s'
  | Hole _ :: ps' =>
      exists seg s', s = seg ++ s' /\ seg <> [] /\ ("/"%char ∉ seg) /\ fits ps' s'
  end.

Definition piece_tokens (p : piece) : list token :=
  match p with
  | Lit text => map (fun c => TAtom (ALit c)) text
  | Hole _ => [TAtom not_slash; TQuant QPlus]
  end.

Definition piece_items (p : piece) : list item :=
  match p with
  | Lit text => map lit text
  | Hole _ => [IAtom not_slash QPlus]
  end.

Definition grant_tokens (ps : list piece) : list token :=
  concat (map piece_tokens ps).

Definition grant_items (ps : list piece) : list item :=
  concat (map piece_items ps).

Definition grant_pattern (ps : list piece) : list ascii :=
  concat (map (fun p => match p with Lit text => text | Hole _ => wildcard end) ps).

Definition is_quant (t : token) : bool :=
  match t with TQuant _ => true | _ => false end.

Definition no_bol (its : list item) : bool :=
  forallb (fun i => match i with IBol => false | _ => true end) its.

Definition grant_pairs (grants : list (string * list piece)) : list (string * string) :=
  map (fun g => (fst g, render (snd g))) grants.

Definition users_roles_grant : list piece :=
  [Lit (list_ascii_of_string "/api/v1/users/"); Hole (list_ascii_of_string "user_id");
   Lit (list_ascii_of_string "/roles")].

Definition single_grant_user (method path : string) : User :=
  {| user_id := 11; username := "single"; is_active := true; is_superuser := false;
     roles := [ {| role_name := "one"; role_apis :=
                     [ {| api_method := method; api_path := path |} ] |} ] |}.

End GrantVocabulary.

Section SessionVocabulary.

Import Jwt Auth.

(** A token carrying [claims] under the signature the server's key gives. *)
Definition well_signed (sign : string -> string -> gmap string pyval -> string)
    (settings : Settings) (t : token) (claims : gmap string pyval) : Prop :=
  t = Compact (JWT_ALGORITHM settings) claims
        (sign (SECRET_KEY settings) (JWT_ALGORITHM settings) claims).

(** Every row of the [user] table is stored under its own id. *)
Definition keyed_by_id (users : gmap Z User) : Prop :=
  forall id u, users !! id = Some u -> user_id u = id.

Definition auth_details : list string :=
  ["Invalid token"; "Login has expired"; "Authentication failed"].

(** What a client can present without the server's key: a string that is
    no token, or the claims of an issued token (an integer [user_id], an
    integer [exp], a string [token_type], nothing else) under any header
    algorithm and any signature. *)
Definition issued_shape (t : token) : Prop :=
  match t with
  | Compact _ claims _ => exists p kind, claims = issued_claims p kind
  | Garbage _ => True
  end.

End SessionVocabulary.

Section ClosureVocabulary.

Import Dept.

(** The closure rows that have [id] as descendant, in table order. *)
Definition rows_of (db : DB) (id : Z) : list DeptClosure :=
  filter (fun r => descendant r = id) (closure db).

(** The row of an ancestor, one level further down, for descendant [id]. *)
Definition bump (id : Z) (item : DeptClosure) : DeptClosure :=
  row (ancestor item) id (level item + 1).

(** The closure table agrees with the parent pointers: keys are positive
    and below the next key, a parent is 0 or a stored department, rows
    exist only for stored departments, and the rows of a department are the
    rows of its parent one level down followed by its self row. *)
Definition closure_consistent (db : DB) : Prop :=
  0 < next_id db
  /\ (forall id d, depts db !! id = Some d ->
        0 < id < next_id db
        /\ (parent_id d = 0 \/ is_Some (depts db !! parent_id d)))
  /\ (forall r, r ∈ closure db -> is_Some (depts db !! descendant r))
  /\ (forall id d, depts db !! id = Some d ->
        rows_of db id = map (bump id) (rows_of db (parent_id d)) ++ [row id id 0]).

Definition new_dept (obj_in : DeptCreate) : Dept :=
  {| name := c_name obj_in; desc := c_desc obj_in; is_deleted := false;
     order := c_order obj_in; parent_id := c_parent_id obj_in |}.

End ClosureVocabulary.

Section TreeVocabulary.

Import Dept DeptTree.

(** All nodes of a tree, parents before children. *)
Fixpoint nodes (t : tree) : list tree :=
  match t with
  | Node _ _ _ _ _ cs =>
      t :: (fix go (l : list tree) : list tree :=
              match l with
              | [] => []
              | c :: l' => nodes c ++ go l'
              end) cs
  end.

Definition forest_nodes (ts : list tree) : list tree := flat_map nodes ts.

(** The rows of [all_depts] whose parent is [p], in query order. *)
Definition rows_under (all_depts : list (Z * Dept)) (p : Z) : list (Z * Dept) :=
  filter (fun dept => parent_id (snd dept) = p) all_depts.

(** The node made from a row has the row's fields. *)
Definition node_of_row (t : tree) (dept : Z * Dept) : Prop :=
  exists cs, t = Node (fst dept) (name (snd dept)) (desc (snd dept)) (order (snd dept))
                   (parent_id (snd dept)) cs.

(** A chain of rows from the virtual root down to [p]: [path] lists the
    ids met, the latest first. *)
Inductive chain (all_depts : list (Z * Dept)) : list Z -> Z -> Prop :=
| chain_root : chain all_depts [] 0
| chain_step (path : list Z) (p : Z) (dept : Z * Dept) :
    chain all_depts path p ->
    dept ∈ all_depts ->
    parent_id (snd dept) = p ->
    chain all_depts (fst dept :: path) (fst dept).

Definition dept_row (n : string) (parent : Z) : Dept :=
  {| name := n; desc := None; is_deleted := false; order := 0; parent_id := parent |}.

(** P = 1 at the root, C = 3 under P, and D = 5 under a department 4 that
    the query did not return. *)
Definition sample_rows : list (Z * Dept) :=
  [(1, dept_row "P" 0); (3, dept_row "C" 1); (5, dept_row "D" 4)].

End TreeVocabulary.

Section StreamVocabulary.

Import Filter FilterOps.

Variable is_space : ascii -> bool.
Variable lower : string -> string.

(** Some configured word, stripped and lower-cased, occurs in the
    lower-cased [text]. *)
Definition hits (words : list string) (text : string) : Prop :=
  exists w, banned is_space words w /\ occurs (lower (strip is_space w)) (lower text).

(** A filter switched on whose automaton holds [words]. *)
Definition built_from (self : SensitiveWordFilter) (words : list string) : Prop :=
  enabled self = true /\ automaton self = Some (add_words is_space lower 0 words ∅).

(** A parser for the witnesses: everything is an object with one field
    [answer] holding the text itself, except the text [not json]. *)
Definition toy_loads (s : string) : loads_result :=
  if String.eqb s "not json" then JSONDecodeError
  else Loaded (EObject {[ "answer" := JString s ]}).

End StreamVocabulary.

Section EnvVocabulary.

Import Filter EnvFile.

(** [s] does not start with a character selected by [f]. *)
Definition head_ok (f : ascii -> bool) (s : list ascii) : Prop :=
  match s with
  | c :: _ => f c = false
  | [] => True
  end.

(** [s] has no character selected by [f] at either end. *)
Definition trimmed (f : ascii -> bool) (s : list ascii) : Prop :=
  head_ok f s /\ head_ok f (rev s).

(** The line [pad1 key pad2 = pad3 q1 value q2 pad4]. *)
Definition assignment_line (pad1 key pad2 pad3 q1 value q2 pad4 : list ascii) : string :=
  string_of_list_ascii
    (pad1 ++ (key ++ pad2) ++ "="%char :: pad3 ++ (q1 ++ value ++ q2) ++ pad4).

End EnvVocabulary.

Section WitnessVocabulary.

Import Jwt Auth Dept DeptTree Filter FilterOps EnvFile.

Definition alice_table : gmap Z User := {[ 1 := alice ]}.

Definition alice_refresh_token : token := create_refresh_token sign0 settings0 0 1.

Definition alice_access_token : token := fst (create_token_pair sign0 settings0 0 0 1).

(** U+00A0, a blank that is not an ASCII character. *)
Definition nbsp : ascii := "160"%char.

Definition forbidden_filter : SensitiveWordFilter :=
  __init__ latin1_isspace latin1_lower true ["Forbidden"; "  "].

Definition chars (s : string) : list ascii := list_ascii_of_string s.

End WitnessVocabulary.

(* ===================================================================== *)
(** * Properties of the pattern matcher                                   *)
(* ===================================================================== *)

Section ReFacts.

Import Re.

(** A run of literal characters matches exactly itself. *)
Lemma match_items_lits (l : list ascii) (rest : list item) :
  forall (b : bool) (s : list ascii),
    match_items (map lit l ++ rest) b s = true <->
    exists s', s = l ++ s' /\ match_items rest (b && bool_decide (l = [])) s' = true.
Proof.
  induction l as [|c l IH]; intros b s.
  - cbn [map app]. rewrite bool_decide_eq_true_2 by reflexivity.
    rewrite andb_true_r. split.
    + intros H. exists s. split; [reflexivity | exact H].
    + intros (s' & -> & H). exact H.
  - cbn [map app lit match_items]. destruct s as [|d s].
    + split; [discriminate | intros (s' & Hs & _); discriminate Hs].
    + rewrite andb_true_iff, (IH false s). cbn [atom_ok].
      rewrite Ascii.eqb_eq, andb_false_l.
      rewrite bool_decide_eq_false_2 by discriminate. rewrite andb_false_r.
      split.
      * intros (-> & s' & -> & H). exists s'. split; [reflexivity | exact H].
      * intros (s' & Hs & H). injection Hs as -> ->. split; [reflexivity |].
        exists s'. split; [reflexivity | exact H].
Qed.

(** Below an end anchor, the greedy loop over an atom that also accepts
    the newline accepts exactly the strings made of such characters. *)
Lemma star_eol_forallb (a : atom) :
  atom_ok a newline = true ->
  forall (s : list ascii) (b : bool),
    (fix star (b : bool) (t : list ascii) {struct t} : bool :=
       match_items [IEol] b t
       || match t with
          | c :: t' => atom_ok a c && star false t'
          | [] => false
          end) b s = forallb (atom_ok a) s.
Proof.
  intros Hnl. induction s as [|c s IH]; intros b.
  - reflexivity.
  - rewrite (IH false). cbn [match_items forallb at_eol].
    destruct (atom_ok a c) eqn:Hc.
    + destruct (forallb (atom_ok a) s) eqn:Hs.
      * rewrite andb_true_l. apply orb_true_r.
      * destruct s as [|d s]; [discriminate Hs |]. reflexivity.
    + rewrite andb_false_l, orb_false_r, andb_true_r.
      destruct s as [|d s]; [| reflexivity].
      destruct (Ascii.eqb c newline) eqn:E; [| reflexivity].
      apply Ascii.eqb_eq in E. subst c. congruence.
Qed.

Lemma match_plus_eol (a : atom) (b : bool) (s : list ascii) :
  atom_ok a newline = true ->
  match_items [IAtom a QPlus; IEol] b s =
  match s with
  | c :: s' => atom_ok a c && forallb (atom_ok a) s'
  | [] => false
  end.
Proof.
  intros Hnl. cbn [match_items]. destruct s as [|c s]; [reflexivity |].
  f_equal. apply (star_eol_forallb a Hnl).
Qed.

Lemma match_items_bol (rest : list item) (b : bool) (s : list ascii) :
  match_items (IBol :: rest) b s = b && match_items rest b s.
Proof. reflexivity. Qed.

Lemma not_slash_ok (c : ascii) : atom_ok not_slash c = true <-> c <> "/"%char.
Proof.
  unfold not_slash, atom_ok, in_range. cbn [existsb fst snd].
  rewrite orb_false_r, xorb_true_l, negb_true_iff. split.
  - intros H ->. discriminate H.
  - intros H. apply andb_false_iff.
    destruct (N.leb_spec (N_of_ascii "/") (N_of_ascii c)) as [H1|H1]; [| now left].
    destruct (N.leb_spec (N_of_ascii c) (N_of_ascii "/")) as [H2|H2]; [| now right].
    exfalso. apply H. rewrite <- (ascii_N_embedding c), <- (ascii_N_embedding "/").
    f_equal. lia.
Qed.

Lemma forallb_not_slash (s : list ascii) :
  forallb (atom_ok not_slash) s = true <-> "/"%char ∉ s.
Proof.
  rewrite forallb_forall. split.
  - intros H Hin. apply list_elem_of_In, H in Hin. apply not_slash_ok in Hin. congruence.
  - intros H c Hc. apply not_slash_ok. intros ->. apply H, list_elem_of_In, Hc.
Qed.

(** ** Placeholder substitution *)

Lemma sub_go_plain (s : list ascii) :
  "{"%char ∉ s -> sub_go None s = s.
Proof.
  induction s as [|c s IH]; intros H; [reflexivity |].
  cbn [sub_go]. destruct (Ascii.eqb_spec c "{") as [-> | _].
  - exfalso. apply H. left.
  - f_equal. apply IH. intros Hin. apply H. now right.
Qed.

Lemma sub_go_open (name buf rest : list ascii) :
  "}"%char ∉ name ->
  sub_go (Some buf) (name ++ "}"%char :: rest) =
  match rev name ++ buf with
  | [] => "{"%char :: "}"%char :: sub_go None rest
  | _ => wildcard ++ sub_go None rest
  end.
Proof.
  revert buf. induction name as [|c name IH]; intros buf H.
  - reflexivity.
  - cbn [app sub_go]. destruct (Ascii.eqb_spec c "}") as [-> | _].
    + exfalso. apply H. left.
    + rewrite IH by (intros Hin; apply H; now right).
      cbn [rev]. now rewrite <- app_assoc.
Qed.

(** A placeholder with a non-empty name becomes the one-segment wildcard;
    the text before it, free of braces, is kept. *)
Lemma sub_go_placeholder (pre name rest : list ascii) :
  "{"%char ∉ pre -> name <> [] -> "}"%char ∉ name ->
  sub_go None (pre ++ "{"%char :: name ++ "}"%char :: rest) =
  pre ++ wildcard ++ sub_go None rest.
Proof.
  intros Hpre Hname Hclose. induction pre as [|c pre IH].
  - cbn [app sub_go Ascii.eqb Bool.eqb]. rewrite sub_go_open by exact Hclose.
    rewrite app_nil_r. destruct (rev name) eqn:E; [| reflexivity].
    apply (f_equal (@rev ascii)) in E. rewrite rev_involutive in E. now elim Hname.
  - cbn [app sub_go]. destruct (Ascii.eqb_spec c "{") as [-> | _].
    + exfalso. apply Hpre. left.
    + f_equal. apply IH. intros Hin. apply Hpre. now right.
Qed.

Example sub_placeholders_agent :
  sub_placeholders "/api/v1/agent/{agent_id}" = "/api/v1/agent/[^/]+".
Proof. reflexivity. Qed.

Example sub_placeholders_unclosed :
  sub_placeholders "/a/{}/{x}/{y" = "/a/{}/[^/]+/{y".
Proof. reflexivity. Qed.

Example re_match_segment :
  re_match "^/api/v1/items/[^/]+$" "/api/v1/items/42" = Some true
  /\ re_match "^/api/v1/items/[^/]+$" "/api/v1/items/42/extra" = Some false
  /\ re_match "^/api/v1/items/[^/]+$" "/api/v1/items/" = Some false
  /\ re_match "^/api/v1/items/[^/]+$" "/prefix/api/v1/items/42" = Some false.
Proof. repeat split; reflexivity. Qed.

Example re_match_alternation :
  re_match "^/a|/b$" "/a/anything" = Some true
  /\ re_match "^/a|/b$" "/b" = Some true
  /\ re_match "^/a|/b$" "/c/b" = Some false.
Proof. repeat split; reflexivity. Qed.

Example re_compile_outside_fragment :
  compile "^/files/(.*)$" = None /\ compile "^/a{2,3}$" = None /\ compile "^/a**$" = None.
Proof. repeat split; reflexivity. Qed.

End ReFacts.

(* ===================================================================== *)
(** * Properties of the permission check                                  *)
(* ===================================================================== *)

Section PermissionFacts.

Import Re Permission.

Lemma list_ascii_of_string_app (s1 s2 : string) :
  list_ascii_of_string (s1 +:+ s2) = list_ascii_of_string s1 ++ list_ascii_of_string s2.
Proof. induction s1 as [|c s1 IH]; [reflexivity |]. simpl. f_equal. exact IH. Qed.

Lemma items_pattern_compile :
  compile items_pattern =
  Some [IBol :: map lit (list_ascii_of_string "/api/v1/items/")
          ++ [IAtom not_slash QPlus; IEol]].
Proof. reflexivity. Qed.

Lemma re_match_items (path : string) :
  exists b, re_match items_pattern path = Some b /\ (b = true <-> under_items path).
Proof.
  unfold re_match. rewrite items_pattern_compile. eexists. split; [reflexivity |].
  cbn [existsb]. rewrite orb_false_r.
  rewrite match_items_bol, andb_true_l, match_items_lits. unfold under_items, single_segment.
  split.
  - intros (s' & Hs & Hm).
    rewrite match_plus_eol in Hm by reflexivity.
    destruct s' as [|c s']; [discriminate Hm |].
    exists (string_of_list_ascii (c :: s')). split; [| split].
    + rewrite <- (string_of_list_ascii_of_string path), Hs.
      rewrite <- (list_ascii_of_string_of_list_ascii (c :: s')) at 1.
      rewrite <- list_ascii_of_string_app.
      now rewrite string_of_list_ascii_of_string.
    + discriminate.
    + rewrite list_ascii_of_string_of_list_ascii.
      apply forallb_not_slash. exact Hm.
  - intros (seg & -> & Hne & Hns).
    exists (list_ascii_of_string seg). split.
    + apply list_ascii_of_string_app.
    + rewrite match_plus_eol by reflexivity.
      apply forallb_not_slash in Hns.
      destruct seg as [|c seg]; [congruence |]. exact Hns.
Qed.

(** When every granted pair is the same one, the loop is decided by that
    pair alone. *)
Lemma check_permissions_uniform (method path perm_method perm_path : string)
    (b : bool) (perms : list (string * string)) :
  Forall (fun x => x = (perm_method, perm_path)) perms ->
  re_match ("^" +:+ sub_placeholders perm_path +:+ "$") path = Some b ->
  check_permissions method path perms =
  if bool_decide (perms <> []) && String.eqb method perm_method && b
  then Allowed else RaiseHTTP 403 (denied_detail method path).
Proof.
  intros Hall Hm. induction Hall as [|x perms -> _ IH].
  - reflexivity.
  - cbn [check_permissions]. rewrite Hm, IH.
    rewrite (bool_decide_eq_true_2 (_ :: _ <> [])) by discriminate.
    destruct (String.eqb method perm_method).
    + destruct b; [reflexivity |]. now rewrite !andb_false_r.
    + now rewrite !andb_false_r.
Qed.

(** C3.  A non-superuser whose roles grant [GET /api/v1/items/{id}] and
    nothing else is allowed [GET /api/v1/items/42] and
    [GET /api/v1/items/abc], and is denied [POST /api/v1/items/42] and
    [GET /api/v1/items/42/extra]; in general a request is allowed exactly
    when its method is [GET] and its path is [/api/v1/items/] followed by
    one non-empty segment without [/], and every other request is denied
    with status 403. *)
Theorem has_permission_items_grant (u : User) :
  is_superuser u = false ->
  permission_apis_of (roles u) <> [] ->
  Forall (fun x => x = items_grant) (permission_apis_of (roles u)) ->
  has_permission u "GET" "/api/v1/items/42" = Allowed
  /\ has_permission u "GET" "/api/v1/items/abc" = Allowed
  /\ has_permission u "POST" "/api/v1/items/42"
     = RaiseHTTP 403 (denied_detail "POST" "/api/v1/items/42")
  /\ has_permission u "GET" "/api/v1/items/42/extra"
     = RaiseHTTP 403 (denied_detail "GET" "/api/v1/items/42/extra")
  /\ (forall method path,
        has_permission u method path = Allowed <-> method = "GET" /\ under_items path)
  /\ (forall method path,
        has_permission u method path <> Allowed ->
        has_permission u method path = RaiseHTTP 403 (denied_detail method path)).
Proof.
  intros Hsu Hne Hall.
  assert (Hhp : forall method path b,
             re_match items_pattern path = Some b ->
             has_permission u method path =
             if String.eqb method "GET" && b
             then Allowed else RaiseHTTP 403 (denied_detail method path)).
  { intros method path b Hb. unfold has_permission. rewrite Hsu.
    destruct (roles u) as [|r rs] eqn:Hr; [now elim Hne |].
    rewrite (check_permissions_uniform method path "GET" "/api/v1/items/{id}" b _ Hall Hb).
    now rewrite (bool_decide_eq_true_2 _ Hne). }
  split; [now rewrite (Hhp "GET" "/api/v1/items/42" true) |].
  split; [now rewrite (Hhp "GET" "/api/v1/items/abc" true) |].
  split; [now rewrite (Hhp "POST" "/api/v1/items/42" true) |].
  split; [now rewrite (Hhp "GET" "/api/v1/items/42/extra" false) |].
  split; intros method path; destruct (re_match_items path) as (b & Hb & Hiff);
    rewrite (Hhp method path b Hb).
  - split.
    + intros H. destruct (String.eqb method "GET") eqn:E; [| discriminate H].
      apply String.eqb_eq in E. split; [exact E |].
      destruct b; [now apply Hiff | discriminate H].
    + intros [-> Hp]. apply Hiff in Hp. subst b. reflexivity.
  - intros H. destruct (String.eqb method "GET" && b); [now elim H | reflexivity].
Qed.

Lemma has_permission_items_grant_witness :
  has_permission items_user "GET" "/api/v1/items/42" = Allowed.
Proof.
  refine (proj1 (has_permission_items_grant items_user _ _ _)).
  - reflexivity.
  - discriminate.
  - repeat constructor.
Defined.

(** C6.  A superuser is allowed every request, whatever the roles; in
    particular with no role at all. *)
Theorem has_permission_superuser (u : User) (method path : string) :
  is_superuser u = true -> has_permission u method path = Allowed.
Proof. intros H. unfold has_permission. now rewrite H. Qed.

Lemma has_permission_superuser_witness :
  roles root_user = [] /\ has_permission root_user "DELETE" "/api/v1/anything" = Allowed.
Proof.
  split; [reflexivity |].
  apply (has_permission_superuser root_user "DELETE" "/api/v1/anything"). reflexivity.
Defined.

(** C7.  A non-superuser without roles is denied every request with
    status 403 and the detail "The user is not bound to a role"; a
    non-superuser that has roles is never denied with that detail: its 403
    carries the detail naming method and path. *)
Theorem has_permission_no_roles (u : User) (method path : string) :
  is_superuser u = false ->
  roles u = [] ->
  has_permission u method path = RaiseHTTP 403 "The user is not bound to a role"
  /\ (forall (v : User) (m p : string) (status : Z) (detail : string),
        is_superuser v = false -> roles v <> [] ->
        has_permission v m p = RaiseHTTP status detail ->
        status = 403 /\ detail = denied_detail m p
        /\ detail <> "The user is not bound to a role").
Proof.
  intros Hsu Hr. split.
  - unfold has_permission. now rewrite Hsu, Hr.
  - intros v m p status detail Hv Hrv. unfold has_permission. rewrite Hv.
    destruct (roles v) as [|r rs]; [now elim Hrv |].
    generalize (permission_apis_of (r :: rs)). intros perms.
    induction perms as [|[pm pp] perms IH]; cbn [check_permissions].
    + intros [= <- <-]. repeat split. discriminate.
    + destruct (String.eqb m pm); [| exact IH].
      destruct (re_match _ p) as [[|]|]; [discriminate | exact IH | discriminate].
Qed.

Lemma has_permission_no_roles_witness :
  has_permission roleless_user "GET" "/api/v1/items/42"
  = RaiseHTTP 403 "The user is not bound to a role".
Proof.
  refine (proj1 (has_permission_no_roles roleless_user "GET" "/api/v1/items/42" _ _));
    reflexivity.
Defined.

(** C10.  Outside the placeholders a granted path is not compared
    literally: a non-superuser granted [GET /api/v1/a.b], a path without
    placeholder, is allowed [GET /api/v1/aXb], because the dot of the grant
    is read as the any-character operator. *)
Theorem has_permission_metacharacter :
  exists (u : User) (method granted path : string),
    is_superuser u = false
    /\ permission_apis_of (roles u) = [(method, granted)]
    /\ sub_placeholders granted = granted
    /\ granted = "/api/v1/a.b" /\ path = "/api/v1/aXb"
    /\ has_permission u method granted = Allowed
    /\ has_permission u method path = Allowed.
Proof.
  exists {| user_id := 8; username := "dot"; is_active := true; is_superuser := false;
            roles := [ {| role_name := "ab"; role_apis :=
                            [ {| api_method := "GET"; api_path := "/api/v1/a.b" |} ] |} ] |}.
  exists "GET", "/api/v1/a.b", "/api/v1/aXb".
  repeat split; reflexivity.
Qed.

End PermissionFacts.

(* ===================================================================== *)
(** * Properties of the token codec and of the session flow               *)
(* ===================================================================== *)

Section TokenFacts.

Import Jwt Auth.

Variable sign : string -> string -> gmap string pyval -> string.
Variable settings : Settings.

Lemma issued_claims_lookup (p : JWTPayload) (kind : string) :
  issued_claims p kind !! "exp" = Some (PInt (timegm (p_exp p)))
  /\ issued_claims p kind !! "user_id" = Some (PInt (p_user_id p))
  /\ issued_claims p kind !! "token_type" = Some (PStr kind).
Proof. repeat split; reflexivity. Qed.

Lemma decode_issue (now : Z) (p : JWTPayload) (kind : string) :
  decode sign now (issue sign settings p kind)
    (SECRET_KEY settings) (JWT_ALGORITHM settings) =
  if timegm (p_exp p) * us_per_second <=? now
  then ExpiredSignatureError else Decoded (issued_claims p kind).
Proof.
  unfold issue, encode, decode. fold (issued_claims p kind).
  rewrite !String.eqb_refl. cbn [negb].
  now rewrite (proj1 (issued_claims_lookup p kind)).
Qed.

(** Verification of an issued token is decided by the clock and by the
    kind it was issued with. *)
Lemma verify_token_issue (now : Z) (p : JWTPayload) (kind expected : string) :
  verify_token sign settings now (issue sign settings p kind) expected =
  if timegm (p_exp p) * us_per_second <=? now then RaiseExpiredSignatureError
  else if String.eqb kind expected
       then Verified {| p_user_id := p_user_id p;
                        p_exp := timegm (p_exp p) * us_per_second;
                        p_token_type := kind |}
       else RaiseInvalidTokenError.
Proof.
  unfold verify_token. rewrite decode_issue.
  destruct (timegm (p_exp p) * us_per_second <=? now); [reflexivity |].
  destruct (issued_claims_lookup p kind) as (He & Hu & Hk).
  unfold dict_get, payload_of_claims. rewrite He, Hu, Hk. simpl.
  now destruct (String.eqb kind expected).
Qed.

Lemma token_claim_issue (p : JWTPayload) (kind : string) :
  token_claim (issue sign settings p kind) "token_type" = Some (PStr kind).
Proof. exact (proj2 (proj2 (issued_claims_lookup p kind))). Qed.

Lemma issue_kind_inj (p q : JWTPayload) (k1 k2 : string) :
  issue sign settings p k1 = issue sign settings q k2 -> k1 = k2.
Proof.
  intros H. pose proof (token_claim_issue p k1) as H1.
  rewrite H, token_claim_issue in H1. congruence.
Qed.

Lemma timegm_lower_bound (dt : Z) : dt - us_per_second < timegm dt * us_per_second.
Proof.
  unfold timegm, us_per_second.
  pose proof (Z.mod_pos_bound dt 1000000 ltac:(lia)).
  pose proof (Z.div_mod dt 1000000 ltac:(lia)). lia.
Qed.

Lemma create_token_pair_issue (now_access now_refresh uid : Z) :
  create_token_pair sign settings now_access now_refresh uid =
  (issue sign settings {| p_user_id := uid;
            p_exp := now_access
                     + timedelta_minutes (JWT_ACCESS_TOKEN_EXPIRE_MINUTES settings);
            p_token_type := "access" |} "access",
   issue sign settings {| p_user_id := uid;
            p_exp := now_refresh
                     + timedelta_days (JWT_REFRESH_TOKEN_EXPIRE_DAYS settings);
            p_token_type := "refresh" |} "refresh").
Proof. reflexivity. Qed.

(** C4.  The two tokens of a pair are distinct.  Up to the expiry written
    into it, the first verifies as an access token and the second as a
    refresh token, each giving back the user id; with positive lifetimes
    this includes the moment of issue.  Verifying either token with the
    other kind fails at every time. *)
Theorem create_token_pair_kinds (now_access now_refresh uid : Z) :
  let pair := create_token_pair sign settings now_access now_refresh uid in
  fst pair <> snd pair
  /\ (forall now, now < access_exp settings now_access ->
        verify_token sign settings now (fst pair) "access"
        = Verified {| p_user_id := uid; p_exp := access_exp settings now_access;
                      p_token_type := "access" |})
  /\ (forall now, now < refresh_exp settings now_refresh ->
        verify_token sign settings now (snd pair) "refresh"
        = Verified {| p_user_id := uid; p_exp := refresh_exp settings now_refresh;
                      p_token_type := "refresh" |})
  /\ (0 < JWT_ACCESS_TOKEN_EXPIRE_MINUTES settings ->
      now_access < access_exp settings now_access)
  /\ (0 < JWT_REFRESH_TOKEN_EXPIRE_DAYS settings ->
      now_refresh < refresh_exp settings now_refresh)
  /\ (forall now, verification_fails (verify_token sign settings now (fst pair) "refresh"))
  /\ (forall now, verification_fails (verify_token sign settings now (snd pair) "access")).
Proof.
  intros pair. subst pair. rewrite create_token_pair_issue. cbn [fst snd].
  split; [| split; [| split; [| split; [| split; [| split]]]]].
  - intros H. apply issue_kind_inj in H. discriminate H.
  - intros now Hnow. rewrite verify_token_issue. cbn [p_exp p_user_id].
    fold (access_exp settings now_access).
    destruct (Z.leb_spec (access_exp settings now_access) now); [lia | reflexivity].
  - intros now Hnow. rewrite verify_token_issue. cbn [p_exp p_user_id].
    fold (refresh_exp settings now_refresh).
    destruct (Z.leb_spec (refresh_exp settings now_refresh) now); [lia | reflexivity].
  - intros Hpos. unfold access_exp.
    pose proof (timegm_lower_bound
                  (now_access + timedelta_minutes (JWT_ACCESS_TOKEN_EXPIRE_MINUTES settings))).
    unfold timedelta_minutes, us_per_second in *. lia.
  - intros Hpos. unfold refresh_exp.
    pose proof (timegm_lower_bound
                  (now_refresh + timedelta_days (JWT_REFRESH_TOKEN_EXPIRE_DAYS settings))).
    unfold timedelta_days, us_per_second in *. lia.
  - intros now. rewrite verify_token_issue. unfold verification_fails.
    destruct (_ <=? now); [now right | now left].
  - intros now. rewrite verify_token_issue. unfold verification_fails.
    destruct (_ <=? now); [now right | now left].
Qed.

(** The outcome of [is_authed] on a well-signed token does not depend on
    the [token_type] claim: writing any value there leaves it unchanged. *)
Lemma is_authed_ignores_token_type
    (users : gmap Z User) (now : Z) (claims : gmap string pyval) (v : pyval) :
  let well_signed c :=
    Compact (JWT_ALGORITHM settings) c
      (sign (SECRET_KEY settings) (JWT_ALGORITHM settings) c) in
  is_authed sign settings users now (Some (well_signed (<["token_type" := v]> claims)))
  = is_authed sign settings users now (Some (well_signed claims)).
Proof.
  intros well_signed. subst well_signed. unfold is_authed, decode, dict_get.
  rewrite !String.eqb_refl. cbn [negb].
  assert (He : <["token_type" := v]> claims !! "exp" = claims !! "exp")
    by (apply lookup_insert_ne; discriminate).
  assert (Hu : <["token_type" := v]> claims !! "user_id" = claims !! "user_id")
    by (apply lookup_insert_ne; discriminate).
  rewrite He. destruct (claims !! "exp") as [[e| | |]|]; try reflexivity.
  - destruct (e * us_per_second <=? now); [reflexivity |]. now rewrite Hu.
  - now rewrite Hu.
Qed.

(** C1 (the code departs from it).  [is_authed] never looks at
    [token_type]: a refresh token that is well signed and unexpired, of a
    user that exists, authenticates the request, although [verify_token]
    with the access kind rejects the same token. *)
Theorem is_authed_accepts_refresh_token
    (users : gmap Z User) (issued_at now uid : Z) (u : User) :
  users !! uid = Some u ->
  now < refresh_exp settings issued_at ->
  is_authed sign settings users now (Some (create_refresh_token sign settings issued_at uid))
  = Authed u uid
  /\ verify_token sign settings now (create_refresh_token sign settings issued_at uid) "access"
     = RaiseInvalidTokenError.
Proof.
  intros Hu Hnow.
  change (create_refresh_token sign settings issued_at uid)
    with (issue sign settings {| p_user_id := uid;
                   p_exp := issued_at
                            + timedelta_days (JWT_REFRESH_TOKEN_EXPIRE_DAYS settings);
                   p_token_type := "refresh" |} "refresh").
  split.
  - unfold is_authed.
    assert (Hd := decode_issue now
                    {| p_user_id := uid;
                       p_exp := issued_at
                                + timedelta_days (JWT_REFRESH_TOKEN_EXPIRE_DAYS settings);
                       p_token_type := "refresh" |} "refresh").
    cbn [p_exp] in Hd. fold (refresh_exp settings issued_at) in Hd.
    destruct (Z.leb_spec (refresh_exp settings issued_at) now); [lia |].
    unfold issue, encode in *. rewrite Hd.
    unfold dict_get. fold (issued_claims
                             {| p_user_id := uid;
                                p_exp := issued_at
                                  + timedelta_days (JWT_REFRESH_TOKEN_EXPIRE_DAYS settings);
                                p_token_type := "refresh" |} "refresh").
    rewrite (proj1 (proj2 (issued_claims_lookup _ _))).
    simpl. now rewrite Hu.
  - rewrite verify_token_issue. cbn [p_exp]. fold (refresh_exp settings issued_at).
    destruct (Z.leb_spec (refresh_exp settings issued_at) now); [lia | reflexivity].
Qed.

(** C5.  A refresh call with a well-signed, unexpired refresh token is
    Unauthorized, and issues nothing, when the user of the token is absent
    or inactive; when the user is present and active it answers with a new
    token pair made for that user. *)
Theorem refresh_rechecks_user (raise_if_absent : bool) (users : gmap Z User)
    (now now_access now_refresh : Z) (refresh_token : token) (payload : JWTPayload) :
  verify_token sign settings now refresh_token "refresh" = Verified payload ->
  let r := refresh_access_token sign settings raise_if_absent users
             now now_access now_refresh refresh_token in
  (users !! p_user_id payload = None -> unauthorized r)
  /\ (forall u, users !! p_user_id payload = Some u -> is_active u = false ->
        unauthorized r)
  /\ (forall u, users !! p_user_id payload = Some u -> is_active u = true ->
        exists data,
          r = Success data
          /\ (out_access_token data, out_refresh_token data)
             = create_token_pair sign settings now_access now_refresh (user_id u)).
Proof.
  intros Hv r. subst r. unfold refresh_access_token, user_repository_get. rewrite Hv.
  split; [| split].
  - intros ->. destruct raise_if_absent; reflexivity.
  - intros u -> ->. reflexivity.
  - intros u -> ->. cbn [negb]. eexists. split; reflexivity.
Qed.

End TokenFacts.

Lemma create_token_pair_kinds_witness :
  Jwt.verify_token sign0 settings0 0
    (fst (Jwt.create_token_pair sign0 settings0 0 0 1)) "access"
  = Jwt.Verified {| Jwt.p_user_id := 1; Jwt.p_exp := access_exp settings0 0;
                    Jwt.p_token_type := "access" |}.
Proof.
  apply (proj1 (proj2 (create_token_pair_kinds sign0 settings0 0 0 1))).
  reflexivity.
Defined.

Lemma is_authed_accepts_refresh_token_witness :
  Auth.is_authed sign0 settings0 {[ 1 := alice ]} 0
    (Some (Jwt.create_refresh_token sign0 settings0 0 1))
  = Auth.Authed alice 1.
Proof.
  refine (proj1 (is_authed_accepts_refresh_token sign0 settings0 {[ 1 := alice ]}
                   0 0 1 alice _ _)); reflexivity.
Defined.

Lemma refresh_rechecks_user_witness :
  Auth.unauthorized
    (Auth.refresh_access_token sign0 settings0 true {[ 1 := alice_disabled ]} 0 0 0
       (Jwt.create_refresh_token sign0 settings0 0 1)).
Proof.
  refine (proj1 (proj2 (refresh_rechecks_user sign0 settings0 true {[ 1 := alice_disabled ]}
                          0 0 0 (Jwt.create_refresh_token sign0 settings0 0 1)
                          {| Jwt.p_user_id := 1; Jwt.p_exp := refresh_exp settings0 0;
                             Jwt.p_token_type := "refresh" |} _))
                 alice_disabled _ _); reflexivity.
Defined.

(* ===================================================================== *)
(** * Properties of the department hierarchy                              *)
(* ===================================================================== *)

Section DeptFacts.

Import Dept.

(** C8.  Deleting an existing department marks its row as deleted, leaves
    every other department row as it was, and removes from the closure
    table the rows whose descendant is the department and no other row;
    the rows that have it as ancestor of another node stay. *)
Theorem delete_dept_frame (db : DB) (dept_id : Z) (d : Dept) :
  depts db !! dept_id = Some d ->
  exists db',
    delete_dept db dept_id = Ok db'
    /\ depts db' !! dept_id = Some (soft_deleted d)
    /\ is_deleted (soft_deleted d) = true
    /\ (forall j, j <> dept_id -> depts db' !! j = depts db !! j)
    /\ closure db' = filter (fun r => descendant r <> dept_id) (closure db)
    /\ (forall r, r ∈ closure db' <-> r ∈ closure db /\ descendant r <> dept_id)
    /\ (forall r, r ∈ closure db -> ancestor r = dept_id -> descendant r <> dept_id ->
          r ∈ closure db').
Proof.
  intros Hd. unfold delete_dept, get. rewrite Hd. eexists. split; [reflexivity |].
  cbn [depts closure]. split; [apply lookup_insert_eq |].
  split; [reflexivity |].
  split; [intros j Hj; now apply lookup_insert_ne |].
  split; [reflexivity |].
  split.
  - intros r. rewrite list_elem_of_filter. tauto.
  - intros r Hr _ Hdesc. apply list_elem_of_filter. now split.
Qed.

(** The closure rows are rebuilt from the row read before the request is
    applied to it, hence from the parent the department had. *)
Lemma update_dept_closure_rows (db : DB) (obj_in : DeptUpdate) (d : Dept) :
  depts db !! u_id obj_in = Some d ->
  parent_id d <> u_parent_id obj_in ->
  exists db',
    update_dept db obj_in = Ok db'
    /\ let kept := filter (fun r => descendant r <> u_id obj_in)
                     (filter (fun r => ancestor r <> u_id obj_in) (closure db)) in
       closure db' =
       kept
       ++ map (fun item => row (ancestor item) (u_id obj_in) (level item + 1))
              (filter (fun r => descendant r = parent_id d) kept)
       ++ [row (u_id obj_in) (u_id obj_in) 0].
Proof.
  intros Hd Hne. unfold update_dept, get. rewrite Hd.
  rewrite decide_True by exact Hne. eexists. split; reflexivity.
Qed.

(** C2 (the code departs from it).  After C, created under P, is moved
    under Q, its row says parent Q, but its closure rows are again the
    self row and the row of P; Q has no row over C. *)
Theorem update_dept_keeps_old_ancestors :
  exists db db',
    three_depts = Ok db
    /\ update_dept db (move_to 3 2) = Ok db'
    /\ parent_id <$> depts db' !! 3 = Some 2
    /\ closure db' = [row 1 1 0; row 2 2 0; row 1 3 1; row 3 3 0]
    /\ row 1 3 1 ∈ closure db'
    /\ row 2 3 1 ∉ closure db'.
Proof.
  eexists. eexists. split; [reflexivity |]. split; [reflexivity |].
  split; [reflexivity |]. split; [reflexivity |].
  split.
  - cbn. set_solver.
  - cbn. intros H. repeat (apply elem_of_cons in H as [H|H]; [discriminate H |]).
    inversion H.
Qed.

Lemma delete_dept_frame_witness :
  exists db',
    delete_dept p_with_child_rows 1 = Ok db'
    /\ closure db' = [row 1 3 1; row 3 3 0].
Proof.
  destruct (delete_dept_frame p_with_child_rows 1 p_row) as (db' & H1 & _ & _ & _ & H5 & _);
    [reflexivity |].
  exists db'. split; [exact H1 |]. rewrite H5. reflexivity.
Defined.

End DeptFacts.

(* ===================================================================== *)
(** * Properties of the sensitive-content filter                          *)
(* ===================================================================== *)

Section FilterFacts.

Import Filter.

Local Open Scope nat_scope.

Variable is_space : ascii -> bool.
Variable lower : string -> string.

(** What is used of [str.lower]: it gives the empty string for the empty
    string and for no other. *)
Hypothesis lower_empty : lower EmptyString = EmptyString.
Hypothesis lower_nonempty : forall s, s <> EmptyString -> lower s <> EmptyString.

Lemma string_of_list_ascii_app (l1 l2 : list ascii) :
  string_of_list_ascii (l1 ++ l2) = string_of_list_ascii l1 +:+ string_of_list_ascii l2.
Proof.
  induction l1 as [|c l1 IH]; [reflexivity |].
  change (String c (string_of_list_ascii (l1 ++ l2))
          = String c (string_of_list_ascii l1 +:+ string_of_list_ascii l2)).
  now rewrite IH.
Qed.

Lemma occurs_nonempty (t s : string) : occurs t s -> t <> EmptyString -> s <> EmptyString.
Proof.
  intros (pre & post & ->) Ht H. destruct pre; [| discriminate H].
  destruct t; [congruence | discriminate H].
Qed.

(** ** The dictionary built from the word list *)

Lemma add_words_lookup (words : list string) :
  forall (idx : nat) (a : gmap string (nat * string)) (k : string) (v : nat * string),
    add_words is_space lower idx words a !! k = Some v ->
    a !! k = Some v
    \/ exists w, banned is_space words w /\ k = lower (strip is_space w) /\ snd v = strip is_space w.
Proof.
  induction words as [|word rest IH]; intros idx a k v H; cbn [add_words] in H.
  - now left.
  - apply IH in H as [H | (w & [Hin Hne] & Hk & Hv)].
    + destruct (String.eqb (strip is_space word) EmptyString) eqn:E; [now left |].
      apply String.eqb_neq in E.
      destruct (decide (lower (strip is_space word) = k)) as [<- | Hk].
      * rewrite lookup_insert_eq in H. injection H as <-.
        right. exists word. repeat split; [apply list_elem_of_here | exact E].
      * rewrite lookup_insert_ne in H by exact Hk. now left.
    + right. exists w. repeat split; [now apply list_elem_of_further | exact Hne | exact Hk
                                     | exact Hv].
Qed.

Lemma add_words_keeps (words : list string) :
  forall (idx : nat) (a : gmap string (nat * string)) (k : string),
    is_Some (a !! k) -> is_Some (add_words is_space lower idx words a !! k).
Proof.
  induction words as [|word rest IH]; intros idx a k H; cbn [add_words]; [exact H |].
  apply IH. destruct (String.eqb (strip is_space word) EmptyString); [exact H |].
  destruct (decide (lower (strip is_space word) = k)) as [<- | Hk].
  - rewrite lookup_insert_eq. eauto.
  - now rewrite lookup_insert_ne.
Qed.

Lemma add_words_present (words : list string) :
  forall (idx : nat) (a : gmap string (nat * string)) (w : string),
    banned is_space words w -> is_Some (add_words is_space lower idx words a !! lower (strip is_space w)).
Proof.
  induction words as [|word rest IH]; intros idx a w [Hin Hne].
  - inversion Hin.
  - cbn [add_words]. apply elem_of_cons in Hin as [-> | Hin].
    + apply add_words_keeps. apply String.eqb_neq in Hne. rewrite Hne.
      rewrite lookup_insert_eq. eauto.
    + apply IH. now split.
Qed.

(** ** The scan *)

Lemma iter_sound (a : gmap string (nat * string)) (text : string) (e : nat)
    (v : nat * string) :
  In (e, v) (iter a text) -> exists key, a !! key = Some v /\ occurs key text.
Proof.
  unfold iter. intros H. apply in_flat_map in H as (e' & _ & H).
  apply list_elem_of_In, list_elem_of_omap in H as (st & _ & H).
  set (t := list_ascii_of_string text) in *.
  destruct (a !! string_of_list_ascii (take (S e' - st) (drop st t))) as [v'|] eqn:Hk;
    [| discriminate H].
  cbn in H. injection H as -> ->.
  eexists. split; [exact Hk |].
  exists (string_of_list_ascii (take st t)),
         (string_of_list_ascii (drop (S e - st) (drop st t))).
  rewrite <- !string_of_list_ascii_app, take_drop, take_drop.
  subst t. now rewrite string_of_list_ascii_of_string.
Qed.

Lemma iter_complete (a : gmap string (nat * string)) (text key : string)
    (v : nat * string) :
  a !! key = Some v -> key <> EmptyString -> occurs key text -> iter a text <> [].
Proof.
  intros Hk Hne (pre & post & ->).
  set (P := list_ascii_of_string pre). set (K := list_ascii_of_string key).
  set (Q := list_ascii_of_string post).
  assert (HK : 0 < length K).
  { subst K. destruct key; [congruence | cbn; lia]. }
  assert (Hin : In (length P + length K - 1, v) (iter a (pre +:+ key +:+ post))).
  { unfold iter. rewrite !list_ascii_of_string_app. fold P K Q.
    apply in_flat_map. exists (length P + length K - 1). split.
    - apply in_seq. rewrite !length_app. lia.
    - apply list_elem_of_In, list_elem_of_omap. exists (length P). split.
      + apply list_elem_of_In, in_seq. lia.
      + replace (S (length P + length K - 1) - length P) with (length K) by lia.
        rewrite drop_app_length, take_app_length. subst K.
        now rewrite string_of_list_ascii_of_string, Hk. }
  intros E. rewrite E in Hin. inversion Hin.
Qed.


End FilterFacts.

Section FilterInstances.

Import Filter.

Lemma latin1_lower_app (s1 s2 : string) :
  latin1_lower (s1 +:+ s2) = latin1_lower s1 +:+ latin1_lower s2.
Proof.
  unfold latin1_lower.
  now rewrite list_ascii_of_string_app, map_app, string_of_list_ascii_app.
Qed.

Lemma latin1_lower_nonempty (s : string) :
  s <> EmptyString -> latin1_lower s <> EmptyString.
Proof. destruct s; [congruence | discriminate]. Qed.


End FilterInstances.

(* ===================================================================== *)
(** * Grants made of literal text and placeholders                        *)
(* ===================================================================== *)

Section GrantFacts.

Import Re Permission.

Lemma plain_not (c d : ascii) :
  plain c = true -> In d (list_ascii_of_string ".^$*+?{}[]\|()") -> c <> d.
Proof.
  unfold plain. rewrite negb_true_iff. intros H Hd ->.
  assert (E : existsb (Ascii.eqb d) (list_ascii_of_string ".^$*+?{}[]\|()") = true).
  { apply existsb_exists. exists d. split; [exact Hd | apply Ascii.eqb_refl]. }
  congruence.
Qed.

Lemma lex_step_plain (c : ascii) (rest : list ascii) :
  plain c = true -> lex_step LNormal c rest = Some (LNormal, [TAtom (ALit c)]).
Proof.
  intros H. unfold lex_step.
  repeat match goal with
         | |- context [Ascii.eqb c ?d] =>
             destruct (Ascii.eqb_spec c d) as [E | _];
             [exfalso; apply (plain_not c d H); [cbn; tauto | exact E] |]
         end.
  reflexivity.
Qed.

Lemma lex_plain (text rest : list ascii) :
  forallb plain text = true ->
  lex LNormal (text ++ rest) =
  (fun ts => map (fun c => TAtom (ALit c)) text ++ ts) <$> lex LNormal rest.
Proof.
  induction text as [|c text IH]; intros H.
  - cbn [app map]. now destruct (lex LNormal rest).
  - cbn [forallb] in H. apply andb_true_iff in H as [Hc Ht].
    cbn [app lex]. rewrite (lex_step_plain c _ Hc), (IH Ht).
    now destruct (lex LNormal rest).
Qed.

Lemma lex_wildcard (rest : list ascii) :
  lex LNormal (wildcard ++ rest) =
  (fun ts => [TAtom not_slash; TQuant QPlus] ++ ts) <$> lex LNormal rest.
Proof. cbn. now destruct (lex LNormal rest). Qed.

Lemma lex_grant_pattern (ps : list piece) (rest : list ascii) :
  Forall piece_ok ps ->
  lex LNormal (grant_pattern ps ++ rest) =
  (fun ts => grant_tokens ps ++ ts) <$> lex LNormal rest.
Proof.
  unfold grant_pattern, grant_tokens. induction 1 as [|p ps Hp _ IH].
  - cbn. now destruct (lex LNormal rest).
  - cbn [map concat]. rewrite <- !app_assoc. destruct p as [text | name].
    + rewrite (lex_plain text _ Hp), IH. cbn [piece_tokens].
      destruct (lex LNormal rest); [| reflexivity]. cbn. now rewrite <- app_assoc.
    + rewrite lex_wildcard, IH. cbn [piece_tokens].
      now destruct (lex LNormal rest).
Qed.

(** ** Substitution on a rendered grant *)

Lemma sub_go_plain_app (text rest : list ascii) :
  forallb plain text = true -> sub_go None (text ++ rest) = text ++ sub_go None rest.
Proof.
  induction text as [|c text IH]; intros H; [reflexivity |].
  cbn [forallb] in H. apply andb_true_iff in H as [Hc Ht].
  cbn [app sub_go]. destruct (Ascii.eqb_spec c "{") as [E | _].
  - exfalso. apply (plain_not c "{" Hc); [cbn; tauto | exact E].
  - f_equal. apply IH, Ht.
Qed.

Lemma sub_go_render (ps : list piece) :
  Forall piece_ok ps ->
  sub_go None (concat (map render_piece ps)) = grant_pattern ps.
Proof.
  unfold grant_pattern. induction 1 as [|p ps Hp _ IH]; [reflexivity |].
  cbn [map concat]. destruct p as [text | name].
  - cbn [render_piece]. now rewrite (sub_go_plain_app _ _ Hp), IH.
  - cbn [render_piece]. destruct Hp as [Hne Hclose].
    replace (("{"%char :: name ++ ["}"%char]) ++ concat (map render_piece ps))
      with ([] ++ "{"%char :: name ++ "}"%char :: concat (map render_piece ps))
      by (cbn [app]; now rewrite <- app_assoc).
    rewrite (sub_go_placeholder [] name _ ltac:(intros H; inversion H) Hne Hclose).
    cbn [app]. now rewrite IH.
Qed.

(** ** Parsing the tokens of a grant *)

Lemma grant_tokens_head (ps : list piece) (rest : list token) :
  match rest with t :: _ => is_quant t = false | [] => True end ->
  match grant_tokens ps ++ rest with t :: _ => is_quant t = false | [] => True end.
Proof.
  intros Hrest. unfold grant_tokens. induction ps as [|p ps IH]; [exact Hrest |].
  cbn [map concat]. rewrite <- app_assoc. destruct p as [[|c text] | name].
  - exact IH.
  - reflexivity.
  - reflexivity.
Qed.

Lemma parse_lits (text : list ascii) (rest : list token) (cur : branch) (done : regex) :
  match rest with t :: _ => is_quant t = false | [] => True end ->
  parse (map (fun c => TAtom (ALit c)) text ++ rest) cur done =
  parse rest (rev (map lit text) ++ cur) done.
Proof.
  revert cur. induction text as [|c text IH]; intros cur Hrest; [reflexivity |].
  cbn [map app]. cbn [rev]. rewrite <- app_assoc. cbn [app].
  rewrite <- (IH (lit c :: cur) Hrest).
  cbn [parse]. destruct text as [|d text].
  - cbn [map app]. destruct rest as [|[| | | |] rest]; try reflexivity. discriminate Hrest.
  - reflexivity.
Qed.

Lemma parse_grant (ps : list piece) (rest : list token) :
  match rest with t :: _ => is_quant t = false | [] => True end ->
  forall (cur : branch) (done : regex),
    parse (grant_tokens ps ++ rest) cur done =
    parse rest (rev (grant_items ps) ++ cur) done.
Proof.
  intros Hrest. unfold grant_tokens, grant_items.
  induction ps as [|p ps IH]; intros cur done; [reflexivity |].
  cbn [map concat]. rewrite <- app_assoc, rev_app_distr, <- app_assoc.
  pose proof (grant_tokens_head ps rest Hrest) as Hhead. unfold grant_tokens in Hhead.
  destruct p as [text | name].
  - cbn [piece_tokens piece_items]. rewrite (parse_lits _ _ _ _ Hhead). apply IH.
  - cbn [piece_tokens piece_items app rev]. rewrite <- IH.
    cbn [parse]. now destruct (concat (map piece_tokens ps) ++ rest) as [|[| | | |] l].
Qed.

(** The pattern built for a well-formed grant compiles to one branch:
    start anchor, the items of the pieces, end anchor. *)
Lemma compile_grant (ps : list piece) :
  Forall piece_ok ps ->
  compile ("^" +:+ sub_placeholders (render ps) +:+ "$") =
  Some [IBol :: grant_items ps ++ [IEol]].
Proof.
  intros Hok. unfold compile, sub_placeholders, render.
  rewrite !list_ascii_of_string_app, !list_ascii_of_string_of_list_ascii.
  rewrite (sub_go_render ps Hok).
  change (list_ascii_of_string "^") with ["^"%char].
  change (list_ascii_of_string "$") with ["$"%char].
  cbn [app lex lex_step Ascii.eqb Bool.eqb].
  rewrite (lex_grant_pattern ps ["$"%char] Hok). cbn.
  pose proof (grant_tokens_head ps [TEol] eq_refl) as Hhead.
  destruct (grant_tokens ps ++ [TEol]) as [|t ts] eqn:E.
  - destruct (grant_tokens ps); discriminate E.
  - destruct t; try discriminate Hhead.
    all: rewrite <- E, (parse_grant ps [TEol] eq_refl); cbn [parse app rev];
      now rewrite rev_app_distr, !rev_involutive.
Qed.

(** ** Matching the items of a grant *)

Lemma star_spec (a : atom) (rest : list item) :
  forall (s : list ascii) (b : bool),
    (fix star (b : bool) (t : list ascii) {struct t} : bool :=
       match_items rest b t
       || match t with
          | c :: t' => atom_ok a c && star false t'
          | [] => false
          end) b s = true <->
    exists pre post,
      s = pre ++ post /\ forallb (atom_ok a) pre = true
      /\ match_items rest (match pre with [] => b | _ => false end) post = true.
Proof.
  induction s as [|c s IH]; intros b.
  - rewrite orb_false_r. split.
    + intros H. exists [], []. repeat split. exact H.
    + intros (pre & post & Hs & _ & H). symmetry in Hs.
      apply app_eq_nil in Hs as [-> ->]. exact H.
  - rewrite orb_true_iff, andb_true_iff, (IH false). split.
    + intros [H | (Hc & pre & post & -> & Hpre & H)].
      * exists [], (c :: s). repeat split. exact H.
      * exists (c :: pre), post. cbn [forallb]. rewrite Hc, Hpre.
        repeat split. now destruct pre.
    + intros (pre & post & Hs & Hpre & H). destruct pre as [|d pre].
      * cbn [app] in Hs. subst post. now left.
      * cbn [app] in Hs. injection Hs as -> ->. cbn [forallb] in Hpre.
        apply andb_true_iff in Hpre as [Hc Hpre]. right. split; [exact Hc |].
        exists pre, post. repeat split; [exact Hpre | now destruct pre].
Qed.

Lemma match_plus_spec (a : atom) (rest : list item) (b : bool) (s : list ascii) :
  match_items (IAtom a QPlus :: rest) b s = true <->
  exists seg post,
    s = seg ++ post /\ seg <> [] /\ forallb (atom_ok a) seg = true
    /\ match_items rest false post = true.
Proof.
  cbn [match_items]. destruct s as [|c s].
  - split; [discriminate |]. intros (seg & post & Hs & Hne & _).
    symmetry in Hs. apply app_eq_nil in Hs as [-> _]. now elim Hne.
  - rewrite andb_true_iff, (star_spec a rest s false). split.
    + intros (Hc & pre & post & -> & Hpre & H).
      exists (c :: pre), post. cbn [forallb]. rewrite Hc, Hpre.
      repeat split; [discriminate | now destruct pre].
    + intros (seg & post & Hs & Hne & Hseg & H). destruct seg as [|d seg]; [now elim Hne |].
      cbn [app] in Hs. injection Hs as -> ->. cbn [forallb] in Hseg.
      apply andb_true_iff in Hseg as [Hc Hseg]. split; [exact Hc |].
      exists seg, post. repeat split; [exact Hseg | now destruct seg].
Qed.

Lemma match_grant_items (ps : list piece) :
  forall (b : bool) (s : list ascii),
    match_items (grant_items ps ++ [IEol]) b s = true <-> fits ps s.
Proof.
  unfold grant_items. induction ps as [|p ps IH]; intros b s.
  - cbn [map concat app match_items fits]. rewrite andb_true_r.
    destruct s as [|c [|d s]]; cbn [at_eol].
    + split; [now left | reflexivity].
    + rewrite Ascii.eqb_eq. split.
      * intros ->. now right.
      * intros [H | H]; [discriminate H | now injection H].
    + split; [discriminate | intros [H | H]; discriminate H].
  - cbn [map concat]. rewrite <- app_assoc. destruct p as [text | name].
    + cbn [piece_items fits]. rewrite match_items_lits.
      split; intros (s' & Hs & H); exists s'; (split; [exact Hs |]).
      * now apply IH in H.
      * now apply IH.
    + cbn [piece_items fits app]. rewrite match_plus_spec.
      split.
      * intros (seg & post & Hs & Hne & Hseg & H). exists seg, post.
        repeat split; [exact Hs | exact Hne | now apply forallb_not_slash | now apply IH in H].
      * intros (seg & post & Hs & Hne & Hseg & H). exists seg, post.
        repeat split; [exact Hs | exact Hne | now apply forallb_not_slash | now apply IH].
Qed.

(** The pattern of a well-formed grant always compiles, and matches
    exactly the paths that fit the grant. *)
Lemma re_match_grant (ps : list piece) (path : string) :
  Forall piece_ok ps ->
  exists b,
    re_match ("^" +:+ sub_placeholders (render ps) +:+ "$") path = Some b
    /\ (b = true <-> fits ps (list_ascii_of_string path)).
Proof.
  intros Hok. unfold re_match. rewrite (compile_grant ps Hok).
  eexists. split; [reflexivity |].
  cbn [existsb]. rewrite orb_false_r, match_items_bol, andb_true_l.
  apply match_grant_items.
Qed.

Lemma check_permissions_grants (method path : string)
    (grants : list (string * list piece)) :
  Forall (fun g => Forall piece_ok (snd g)) grants ->
  (check_permissions method path (grant_pairs grants) = Allowed <->
   exists g, g ∈ grants /\ fst g = method /\ fits (snd g) (list_ascii_of_string path))
  /\ (check_permissions method path (grant_pairs grants) = Allowed
      \/ check_permissions method path (grant_pairs grants)
         = RaiseHTTP 403 (denied_detail method path)).
Proof.
  induction 1 as [|[m ps] grants Hok _ [IH1 IH2]]; cbn [grant_pairs map check_permissions].
  - split; [| now right]. split; [discriminate |].
    intros (g & Hg & _). inversion Hg.
  - cbn [fst snd] in *. fold (grant_pairs grants).
    destruct (String.eqb_spec method m) as [-> | Hm].
    + destruct (re_match_grant ps path Hok) as (b & Hb & Hiff). rewrite Hb.
      destruct b.
      * split; [| now left]. split; [| reflexivity]. intros _.
        exists (m, ps). repeat split; [apply list_elem_of_here | now apply Hiff].
      * split; [| exact IH2]. rewrite IH1. split.
        -- intros (g & Hg & Hrest). exists g. split; [now apply list_elem_of_further | exact Hrest].
        -- intros (g & Hg & Hgm & Hfit). apply elem_of_cons in Hg as [-> | Hg].
           ++ cbn [snd] in Hfit. apply Hiff in Hfit. discriminate Hfit.
           ++ exists g. now repeat split.
    + split; [| exact IH2]. rewrite IH1. split.
      * intros (g & Hg & Hrest). exists g. split; [now apply list_elem_of_further | exact Hrest].
      * intros (g & Hg & Hgm & Hfit). apply elem_of_cons in Hg as [-> | Hg].
        -- cbn [fst] in Hgm. congruence.
        -- exists g. now repeat split.
Qed.

(** X1.  For a non-superuser with roles whose granted paths are all made
    of literal text and [{name}] placeholders, a request is allowed
    exactly when some grant has the request's method and the path fits it
    piece by piece, each placeholder taking one non-empty run without
    [/]; every other request is denied with status 403 and the detail that
    names method and path. *)
Theorem has_permission_well_formed_grants
    (u : User) (grants : list (string * list piece)) (method path : string) :
  is_superuser u = false ->
  roles u <> [] ->
  permission_apis_of (roles u) = grant_pairs grants ->
  Forall (fun g => Forall piece_ok (snd g)) grants ->
  (has_permission u method path = Allowed <->
   exists g, g ∈ grants /\ fst g = method /\ fits (snd g) (list_ascii_of_string path))
  /\ (has_permission u method path = Allowed
      \/ has_permission u method path = RaiseHTTP 403 (denied_detail method path)).
Proof.
  intros Hsu Hr Hperm Hok. unfold has_permission. rewrite Hsu.
  destruct (roles u) as [|r rs] eqn:E; [now elim Hr |].
  rewrite Hperm. now apply check_permissions_grants.
Qed.

Lemma has_permission_well_formed_grants_witness :
  has_permission
    (single_grant_user "GET" (render users_roles_grant)) "GET" "/api/v1/users/7/roles"
  = Allowed.
Proof.
  apply (proj1 (has_permission_well_formed_grants
                  (single_grant_user "GET" (render users_roles_grant))
                  [("GET", users_roles_grant)] "GET" "/api/v1/users/7/roles"
                  eq_refl ltac:(discriminate) eq_refl
                  ltac:(repeat constructor; try discriminate;
                        intros H; repeat (apply elem_of_cons in H as [H | H];
                                          [discriminate H |]); inversion H))).
  exists ("GET", users_roles_grant). split; [apply list_elem_of_here |].
  split; [reflexivity |].
  exists (list_ascii_of_string "7/roles"). split; [reflexivity |].
  exists ["7"%char], (list_ascii_of_string "/roles").
  split; [reflexivity |]. split; [discriminate |]. split.
  - intros H. apply elem_of_cons in H as [H | H]; [discriminate H | inversion H].
  - exists []. split; [reflexivity | now left].
Defined.

(** X2.  A granted path without placeholders and without characters that
    [re] reads specially allows its own path, and also that path followed
    by one newline, because [$] also matches before a final newline;
    nothing else. *)
Theorem has_permission_literal_grant (u : User) (m p method path : string) :
  is_superuser u = false ->
  permission_apis_of (roles u) <> [] ->
  Forall (fun x => x = (m, p)) (permission_apis_of (roles u)) ->
  forallb plain (list_ascii_of_string p) = true ->
  has_permission u method path = Allowed <->
  method = m /\ (path = p \/ path = p +:+ String newline EmptyString).
Proof.
  intros Hsu Hne Hall Hplain.
  assert (Hp : p = render [Lit (list_ascii_of_string p)]).
  { unfold render. cbn [map concat render_piece].
    now rewrite app_nil_r, string_of_list_ascii_of_string. }
  destruct (re_match_grant [Lit (list_ascii_of_string p)] path) as (b & Hb & Hiff).
  { repeat constructor. exact Hplain. }
  rewrite <- Hp in Hb. unfold has_permission. rewrite Hsu.
  destruct (roles u) as [|r rs] eqn:E; [now elim Hne |].
  rewrite (check_permissions_uniform method path m p b _ Hall Hb).
  rewrite (bool_decide_eq_true_2 _ Hne), andb_true_l.
  assert (Hfit : fits [Lit (list_ascii_of_string p)] (list_ascii_of_string path)
                 <-> path = p \/ path = p +:+ String newline EmptyString).
  { cbn [fits]. split.
    - intros (s' & Hs & [-> | ->]);
        apply (f_equal string_of_list_ascii) in Hs;
        rewrite string_of_list_ascii_of_string in Hs; subst path.
      + left. now rewrite app_nil_r, string_of_list_ascii_of_string.
      + right. rewrite string_of_list_ascii_app.
        now rewrite string_of_list_ascii_of_string.
    - intros [-> | ->].
      + exists []. split; [now rewrite app_nil_r | now left].
      + exists [newline]. split; [apply list_ascii_of_string_app | now right]. }
  rewrite <- Hfit, <- Hiff.
  destruct (String.eqb_spec method m) as [-> | Hm].
  - destruct b; cbn [andb]; split; try tauto; try discriminate.
    + intros [_ H]. discriminate H.
  - cbn [andb]. split; [discriminate | tauto].
Qed.

Lemma has_permission_literal_grant_witness :
  has_permission (single_grant_user "GET" "/api/v1/base/userinfo") "GET"
    ("/api/v1/base/userinfo" +:+ String newline EmptyString) = Allowed.
Proof.
  apply (proj2 (has_permission_literal_grant
                  (single_grant_user "GET" "/api/v1/base/userinfo")
                  "GET" "/api/v1/base/userinfo" "GET"
                  ("/api/v1/base/userinfo" +:+ String newline EmptyString)
                  eq_refl ltac:(discriminate) ltac:(repeat constructor) eq_refl)).
  split; [reflexivity | now right].
Defined.

(** X3.  When no granted pair carries the request's method, compared
    exactly, the request is denied with status 403 whatever the granted
    paths are; their patterns are not even compiled. *)
Theorem has_permission_method_mismatch (u : User) (method path : string) :
  is_superuser u = false ->
  roles u <> [] ->
  Forall (fun x => fst x <> method) (permission_apis_of (roles u)) ->
  has_permission u method path = RaiseHTTP 403 (denied_detail method path).
Proof.
  intros Hsu Hr Hall. unfold has_permission. rewrite Hsu.
  destruct (roles u) as [|r rs] eqn:E; [now elim Hr |].
  induction Hall as [|[pm pp] perms Hx _ IH]; [reflexivity |].
  cbn [check_permissions]. cbn [fst] in Hx.
  destruct (String.eqb_spec method pm) as [-> | _]; [now elim Hx | exact IH].
Qed.

Lemma has_permission_method_mismatch_witness :
  has_permission (single_grant_user "GET" "/api/v1/files/(") "get" "/api/v1/files/("
  = RaiseHTTP 403 (denied_detail "get" "/api/v1/files/(").
Proof.
  apply (has_permission_method_mismatch (single_grant_user "GET" "/api/v1/files/(")
           "get" "/api/v1/files/(" eq_refl ltac:(discriminate)).
  repeat constructor. discriminate.
Defined.

Lemma check_permissions_app (method path : string) (a b : list (string * string)) :
  check_permissions method path a = Allowed ->
  check_permissions method path (a ++ b) = Allowed.
Proof.
  induction a as [|[pm pp] a IH]; [discriminate |].
  cbn [app check_permissions]. destruct (String.eqb method pm); [| exact IH].
  destruct (re_match _ path) as [[|]|]; [reflexivity | exact IH | discriminate].
Qed.

(** X4.  Grants are only ever added to: a request allowed to a
    non-superuser stays allowed when further roles are appended to the
    user's roles. *)
Theorem has_permission_more_roles (u v : User) (extra : list Role) (method path : string) :
  is_superuser u = false ->
  is_superuser v = false ->
  roles v = roles u ++ extra ->
  has_permission u method path = Allowed ->
  has_permission v method path = Allowed.
Proof.
  intros Hu Hv Hr. unfold has_permission. rewrite Hu, Hv, Hr.
  destruct (roles u) as [|r rs]; [discriminate |].
  cbn [app]. change (r :: rs ++ extra) with ((r :: rs) ++ extra).
  unfold permission_apis_of. rewrite map_app, concat_app, map_app.
  apply check_permissions_app.
Qed.

Lemma has_permission_more_roles_witness :
  has_permission
    {| user_id := 7; username := "reader"; is_active := true; is_superuser := false;
       roles := roles items_user ++ roles (single_grant_user "POST" "/api/v1/items") |}
    "GET" "/api/v1/items/42" = Allowed.
Proof.
  apply (has_permission_more_roles items_user _
           (roles (single_grant_user "POST" "/api/v1/items")) "GET" "/api/v1/items/42");
    reflexivity.
Defined.

End GrantFacts.

(* ===================================================================== *)
(** * Further properties of the token codec and of the session flow       *)
(* ===================================================================== *)

Section SessionFacts.

Import Jwt Auth.

Variable sign : string -> string -> gmap string pyval -> string.
Variable settings : Settings.

(** X5.  A token that carries the claims of an issued token, under
    whatever header algorithm and signature it is presented, is verified
    only if the algorithm is the configured one, the signature is the one
    the server's key gives for these claims, the [token_type] claim is the
    expected kind and the expiry lies in the future; the payload returned
    repeats the [user_id] and the kind of the claims. *)
Theorem verify_token_sound (now : Z) (alg sig : string) (p0 : JWTPayload)
    (kind0 kind : string) (p : JWTPayload) :
  verify_token sign settings now (Compact alg (issued_claims p0 kind0) sig) kind
  = Verified p ->
  alg = JWT_ALGORITHM settings
  /\ sig = sign (SECRET_KEY settings) alg (issued_claims p0 kind0)
  /\ kind0 = kind
  /\ now < timegm (p_exp p0) * us_per_second
  /\ p_user_id p = p_user_id p0
  /\ p_token_type p = kind.
Proof.
  unfold verify_token, decode.
  destruct (String.eqb_spec alg (JWT_ALGORITHM settings)) as [-> | _]; [| discriminate].
  destruct (String.eqb_spec sig
              (sign (SECRET_KEY settings) (JWT_ALGORITHM settings)
                 (issued_claims p0 kind0))) as [-> | _];
    [| discriminate].
  cbn [negb]. rewrite (proj1 (issued_claims_lookup p0 kind0)).
  destruct (Z.leb_spec (timegm (p_exp p0) * us_per_second) now) as [_ | Hnow];
    [discriminate |].
  unfold dict_get, payload_of_claims.
  rewrite (proj1 (issued_claims_lookup p0 kind0)),
    (proj1 (proj2 (issued_claims_lookup p0 kind0))),
    (proj2 (proj2 (issued_claims_lookup p0 kind0))).
  cbn [default id pyval_eqb].
  destruct (String.eqb_spec kind0 kind) as [-> | _]; cbn [negb]; [| discriminate].
  intros [= <-]. now repeat split.
Qed.

Lemma issued_claims_normal (p : JWTPayload) (kind : string) :
  encode_claims (<["token_type" := PStr kind]> (model_dump p)) =
  <["token_type" := PStr kind]>
    (<["exp" := PInt (timegm (p_exp p))]> (<["user_id" := PInt (p_user_id p)]> ∅)).
Proof. reflexivity. Qed.

Lemma create_refresh_token_issue (issued_at uid : Z) :
  create_refresh_token sign settings issued_at uid =
  issue sign settings
    {| p_user_id := uid;
       p_exp := issued_at + timedelta_days (JWT_REFRESH_TOKEN_EXPIRE_DAYS settings);
       p_token_type := "refresh" |} "refresh".
Proof. reflexivity. Qed.

(** X6.  The expiry written into a refresh token is the nominal expiry
    cut down to a whole second.  From that instant on verification raises
    the expiry error; at every earlier instant it returns the payload. *)
Theorem refresh_token_expiry_boundary (issued_at uid now : Z) :
  let nominal := issued_at + timedelta_days (JWT_REFRESH_TOKEN_EXPIRE_DAYS settings) in
  let exp := refresh_exp settings issued_at in
  nominal - us_per_second < exp <= nominal
  /\ exp mod us_per_second = 0
  /\ (exp <= now ->
      verify_token sign settings now (create_refresh_token sign settings issued_at uid)
        "refresh" = RaiseExpiredSignatureError)
  /\ (now < exp ->
      verify_token sign settings now (create_refresh_token sign settings issued_at uid)
        "refresh"
      = Verified {| p_user_id := uid; p_exp := exp; p_token_type := "refresh" |}).
Proof.
  intros nominal exp. subst nominal exp.
  rewrite create_refresh_token_issue, verify_token_issue. cbn [p_exp p_user_id].
  fold (refresh_exp settings issued_at).
  split; [| split; [| split]].
  - unfold refresh_exp.
    pose proof (timegm_lower_bound
                  (issued_at + timedelta_days (JWT_REFRESH_TOKEN_EXPIRE_DAYS settings))).
    split; [exact H |]. unfold timegm, us_per_second.
    rewrite Z.mul_comm. apply Z.mul_div_le. lia.
  - unfold refresh_exp. apply Z.mod_mul. unfold us_per_second. lia.
  - intros Hexp. destruct (Z.leb_spec (refresh_exp settings issued_at) now); [reflexivity | lia].
  - intros Hexp. destruct (Z.leb_spec (refresh_exp settings issued_at) now); [lia | reflexivity].
Qed.

(** X7.  [create_access_token] writes the access kind over whatever kind
    the payload it is given carries: the token does not depend on that
    field, verifies as an access token and is refused as a refresh
    token. *)
Theorem create_access_token_forces_kind (data : JWTPayload) (kind : string) (now : Z) :
  let data' := {| p_user_id := p_user_id data; p_exp := p_exp data;
                  p_token_type := kind |} in
  create_access_token sign settings data' = create_access_token sign settings data
  /\ (now < timegm (p_exp data) * us_per_second ->
      verify_token sign settings now (create_access_token sign settings data') "access"
      = Verified {| p_user_id := p_user_id data;
                    p_exp := timegm (p_exp data) * us_per_second;
                    p_token_type := "access" |}
      /\ verify_token sign settings now (create_access_token sign settings data') "refresh"
         = RaiseInvalidTokenError).
Proof.
  intros data'. subst data'.
  assert (E : forall d, create_access_token sign settings d
                        = issue sign settings
                            {| p_user_id := p_user_id d; p_exp := p_exp d;
                               p_token_type := "access" |} "access").
  { intros d. unfold create_access_token, issue, model_dump. cbn [p_user_id p_exp p_token_type].
    now rewrite !insert_insert_eq. }
  split; [now rewrite !E |].
  intros Hnow. rewrite E, !verify_token_issue. cbn [p_exp p_user_id].
  destruct (Z.leb_spec (timegm (p_exp data) * us_per_second) now); [lia |].
  split; reflexivity.
Qed.

(** X8.  A token pair depends on the clock only through the whole second
    of each reading: two calls for the same user whose readings fall in
    the same seconds return the same two tokens. *)
Theorem create_token_pair_same_second (now_access now_refresh now_access' now_refresh' uid : Z) :
  timegm now_access = timegm now_access' ->
  timegm now_refresh = timegm now_refresh' ->
  create_token_pair sign settings now_access now_refresh uid
  = create_token_pair sign settings now_access' now_refresh' uid.
Proof.
  intros Ha Hr.
  assert (Hshift : forall n k, timegm (n + k * us_per_second) = timegm n + k).
  { intros n k. unfold timegm, us_per_second. apply Z.div_add. lia. }
  assert (Ea : timegm (now_access
                       + timedelta_minutes (JWT_ACCESS_TOKEN_EXPIRE_MINUTES settings))
               = timegm (now_access'
                         + timedelta_minutes (JWT_ACCESS_TOKEN_EXPIRE_MINUTES settings))).
  { unfold timedelta_minutes. now rewrite !Hshift, Ha. }
  assert (Er : timegm (now_refresh
                       + timedelta_days (JWT_REFRESH_TOKEN_EXPIRE_DAYS settings))
               = timegm (now_refresh'
                         + timedelta_days (JWT_REFRESH_TOKEN_EXPIRE_DAYS settings))).
  { unfold timedelta_days. now rewrite !Hshift, Hr. }
  rewrite !create_token_pair_issue. unfold issue, encode.
  rewrite !issued_claims_normal. cbn [p_exp p_user_id].
  now rewrite Ea, Er.
Qed.

(** X9.  For credentials that are absent, no token at all, or the claims
    of an issued token under whatever algorithm and signature:
    [is_authed] answers with a user only for a token of the configured
    algorithm, signed by the server's key, not expired, whose [user_id]
    claim is the key of that user's row; the id bound into the request
    context is that claim.  In every other case, a missing header
    included, it raises status 401 with one of three details. *)
Theorem is_authed_sound (users : gmap Z User) (now : Z) (credentials : option token) :
  (forall t, credentials = Some t -> issued_shape t) ->
  (forall u ctx,
     is_authed sign settings users now credentials = Authed u ctx ->
     users !! ctx = Some u
     /\ exists t claims,
          credentials = Some t /\ well_signed sign settings t claims
          /\ claims !! "user_id" = Some (PInt ctx)
          /\ exists e, claims !! "exp" = Some (PInt e) /\ now < e * us_per_second)
  /\ (forall status detail,
        is_authed sign settings users now credentials = AuthRaise status detail ->
        status = 401 /\ detail ∈ auth_details)
  /\ is_authed sign settings users now None = AuthRaise 401 "Authentication failed".
Proof.
  intros Hshape.
  assert (Hd : forall d, d ∈ auth_details <->
                 d = "Invalid token" \/ d = "Login has expired"
                 \/ d = "Authentication failed").
  { intros d. unfold auth_details. rewrite !elem_of_cons, elem_of_nil. tauto. }
  split; [| split; [| reflexivity]].
  - intros u ctx. unfold is_authed, well_signed.
    destruct credentials as [[a claims sig | raw]|]; [| destruct raw; discriminate | discriminate].
    destruct (Hshape _ eq_refl) as (p0 & kind0 & ->).
    unfold decode.
    destruct (String.eqb_spec a (JWT_ALGORITHM settings)) as [-> | _]; [| discriminate].
    destruct (String.eqb_spec sig
                (sign (SECRET_KEY settings) (JWT_ALGORITHM settings)
                   (issued_claims p0 kind0))) as [-> | _];
      [| discriminate].
    cbn [negb]. rewrite (proj1 (issued_claims_lookup p0 kind0)).
    destruct (Z.leb_spec (timegm (p_exp p0) * us_per_second) now) as [_ | Hnow];
      [discriminate |].
    unfold dict_get. rewrite (proj1 (proj2 (issued_claims_lookup p0 kind0))).
    cbn [default id]. destruct (users !! p_user_id p0) as [u'|] eqn:Hrow; [| discriminate].
    intros [= <- <-]. split; [exact Hrow |].
    exists (Compact (JWT_ALGORITHM settings) (issued_claims p0 kind0)
              (sign (SECRET_KEY settings) (JWT_ALGORITHM settings) (issued_claims p0 kind0))),
           (issued_claims p0 kind0).
    split; [reflexivity |]. split; [reflexivity |].
    split; [apply (issued_claims_lookup p0 kind0) |].
    exists (timegm (p_exp p0)). split; [apply (issued_claims_lookup p0 kind0) | exact Hnow].
  - intros status detail. rewrite Hd. unfold is_authed.
    destruct credentials as [[a claims sig | raw]|].
    + destruct (decode sign now _ _ _) as [c | | |].
      * destruct (dict_get c "user_id") as [uid| | |];
          try (intros [= <- <-]; tauto).
        destruct (users !! uid); [discriminate | intros [= <- <-]; tauto].
      * intros [= <- <-]; tauto.
      * intros [= <- <-]; tauto.
      * intros [= <- <-]; tauto.
    + destruct raw as [|c raw]; [intros [= <- <-]; tauto |].
      cbn [decode]. intros [= <- <-]; tauto.
    + intros [= <- <-]; tauto.
Qed.

(** X10.  [refresh_access_token] has two kinds of outcome.  A success
    carries a pair made for a user row that is present and active, under
    the [user_id] of a token verified as a refresh token; every other
    outcome is Unauthorized. *)
Theorem refresh_access_token_outcomes (raise_if_absent : bool) (users : gmap Z User)
    (now now_access now_refresh : Z) (refresh_token : token) :
  let r := refresh_access_token sign settings raise_if_absent users
             now now_access now_refresh refresh_token in
  (forall data,
     r = Success data ->
     exists payload u,
       verify_token sign settings now refresh_token "refresh" = Verified payload
       /\ users !! p_user_id payload = Some u /\ is_active u = true
       /\ (out_access_token data, out_refresh_token data)
          = create_token_pair sign settings now_access now_refresh (user_id u)
       /\ out_token_type data = "bearer"
       /\ out_expires_in data = JWT_ACCESS_TOKEN_EXPIRE_MINUTES settings * 60)
  /\ ((forall data, r <> Success data) -> unauthorized r).
Proof.
  intros r. subst r. unfold refresh_access_token, user_repository_get.
  destruct (verify_token sign settings now refresh_token "refresh") as [payload | | |].
  2-4: split; [discriminate | reflexivity].
  destruct (users !! p_user_id payload) as [u|] eqn:Hu.
  - destruct (is_active u) eqn:Ha; cbn [negb].
    + split.
      * intros data [= <-]. exists payload, u. now repeat split.
      * intros H. now elim (H _ eq_refl).
    + split; [discriminate | reflexivity].
  - destruct raise_if_absent; (split; [discriminate | reflexivity]).
Qed.

(** X11.  The access token of a pair is never accepted by the refresh
    endpoint: at every time and for every user table the call raises
    status 401. *)
Theorem refresh_rejects_access_token (raise_if_absent : bool) (users : gmap Z User)
    (issued_access issued_refresh uid now now_access now_refresh : Z) :
  refresh_access_token sign settings raise_if_absent users now now_access now_refresh
    (fst (create_token_pair sign settings issued_access issued_refresh uid))
  = RaiseHTTPException 401 "Token is invalid or expired".
Proof.
  unfold refresh_access_token. rewrite create_token_pair_issue. cbn [fst].
  rewrite verify_token_issue. cbn [p_exp String.eqb Ascii.eqb Bool.eqb].
  now destruct (_ <=? now).
Qed.

(** X12.  Nothing is revoked by a refresh.  After a successful refresh,
    and while the user stays active, a later call succeeds both with the
    refresh token just returned and with the refresh token that was
    presented, each until its own expiry. *)
Theorem refresh_keeps_old_token (raise_if_absent : bool) (users : gmap Z User)
    (issued_at uid now1 now_access1 now_refresh1 now2 now_access2 now_refresh2 : Z)
    (u : User) (data : TokenRefreshOut) :
  keyed_by_id users ->
  users !! uid = Some u ->
  is_active u = true ->
  refresh_access_token sign settings raise_if_absent users now1 now_access1 now_refresh1
    (create_refresh_token sign settings issued_at uid) = Success data ->
  (now2 < refresh_exp settings now_refresh1 ->
   exists data',
     refresh_access_token sign settings raise_if_absent users now2 now_access2 now_refresh2
       (out_refresh_token data) = Success data')
  /\ (now2 < refresh_exp settings issued_at ->
      exists data',
        refresh_access_token sign settings raise_if_absent users now2 now_access2 now_refresh2
          (create_refresh_token sign settings issued_at uid) = Success data').
Proof.
  intros Hkey Hu Ha Hfirst.
  assert (Hok : forall issued now na nr,
             now < refresh_exp settings issued ->
             exists data',
               refresh_access_token sign settings raise_if_absent users now na nr
                 (create_refresh_token sign settings issued uid) = Success data').
  { intros issued now na nr Hnow. unfold refresh_access_token, user_repository_get.
    rewrite create_refresh_token_issue, verify_token_issue. cbn [p_exp p_user_id].
    fold (refresh_exp settings issued).
    destruct (Z.leb_spec (refresh_exp settings issued) now); [lia |].
    cbn [String.eqb Ascii.eqb Bool.eqb p_user_id]. rewrite Hu, Ha. cbn [negb].
    eexists. reflexivity. }
  split; [| apply Hok].
  intros Hnow.
  unfold refresh_access_token, user_repository_get in Hfirst.
  rewrite create_refresh_token_issue, verify_token_issue in Hfirst.
  cbn [p_exp p_user_id String.eqb Ascii.eqb Bool.eqb] in Hfirst.
  destruct (_ <=? now1); [discriminate Hfirst |].
  cbn [p_user_id] in Hfirst. rewrite Hu, Ha in Hfirst. cbn [negb] in Hfirst.
  rewrite (Hkey uid u Hu) in Hfirst. injection Hfirst as <-. cbn [out_refresh_token].
  now apply Hok.
Qed.

End SessionFacts.

(* ===================================================================== *)
(** * Further properties of the department hierarchy                      *)
(* ===================================================================== *)

Section ClosureFacts.

Import Dept.

Lemma filter_app_rows (id : Z) (l1 l2 : list DeptClosure) :
  filter (fun r => descendant r = id) (l1 ++ l2)
  = filter (fun r => descendant r = id) l1 ++ filter (fun r => descendant r = id) l2.
Proof. apply filter_app. Qed.

Lemma filter_none (id : Z) (l : list DeptClosure) :
  (forall r, r ∈ l -> descendant r <> id) ->
  filter (fun r => descendant r = id) l = [].
Proof.
  induction l as [|r l IH]; intros H; [reflexivity |].
  rewrite filter_cons_False by (apply H; left).
  apply IH. intros r' Hr'. apply H. now right.
Qed.

Lemma filter_all (id : Z) (l : list DeptClosure) :
  (forall r, r ∈ l -> descendant r = id) ->
  filter (fun r => descendant r = id) l = l.
Proof.
  induction l as [|r l IH]; intros H; [reflexivity |].
  rewrite filter_cons_True by (apply H; left).
  f_equal. apply IH. intros r' Hr'. apply H. now right.
Qed.

Lemma create_dept_ok (db : DB) (obj_in : DeptCreate) :
  c_parent_id obj_in = 0 \/ is_Some (depts db !! c_parent_id obj_in) ->
  create_dept db obj_in =
  Ok {| depts := <[next_id db := new_dept obj_in]> (depts db);
        closure := closure db
                   ++ map (bump (next_id db)) (rows_of db (c_parent_id obj_in))
                   ++ [row (next_id db) (next_id db) 0];
        next_id := next_id db + 1 |}.
Proof.
  intros H. unfold create_dept, get.
  destruct (decide (c_parent_id obj_in <> 0)) as [Hne | Heq].
  - destruct H as [H | [d Hd]]; [now elim Hne |]. now rewrite Hd.
  - reflexivity.
Qed.

Lemma create_dept_inv (db db' : DB) (obj_in : DeptCreate) :
  create_dept db obj_in = Ok db' ->
  (c_parent_id obj_in = 0 \/ is_Some (depts db !! c_parent_id obj_in))
  /\ depts db' = <[next_id db := new_dept obj_in]> (depts db)
  /\ next_id db' = next_id db + 1
  /\ closure db' =
     closure db
     ++ map (bump (next_id db)) (rows_of db (c_parent_id obj_in))
     ++ [row (next_id db) (next_id db) 0].
Proof.
  intros H.
  assert (Hp : c_parent_id obj_in = 0 \/ is_Some (depts db !! c_parent_id obj_in)).
  { unfold create_dept, get in H.
    destruct (decide (c_parent_id obj_in <> 0)) as [Hne | Heq]; [| left; lia].
    destruct (depts db !! c_parent_id obj_in) as [d|]; [right; eauto | discriminate H]. }
  rewrite (create_dept_ok db obj_in Hp) in H. injection H as <-. now repeat split.
Qed.

(** X13.  [create_dept] fails, with the not-found error, exactly when the
    parent id is not 0 and no department has it.  When it succeeds the new
    department takes the next key, every department and every closure row
    that existed stays as it was, in order, and the rows appended are the
    rows of the parent one level down followed by the self row. *)
Theorem create_dept_effect (db : DB) (obj_in : DeptCreate) :
  (create_dept db obj_in = DoesNotExist <->
   c_parent_id obj_in <> 0 /\ depts db !! c_parent_id obj_in = None)
  /\ (forall db',
        create_dept db obj_in = Ok db' ->
        depts db' = <[next_id db := new_dept obj_in]> (depts db)
        /\ next_id db' = next_id db + 1
        /\ closure db' =
           closure db
           ++ map (bump (next_id db)) (rows_of db (c_parent_id obj_in))
           ++ [row (next_id db) (next_id db) 0]).
Proof.
  split.
  - unfold create_dept, get.
    destruct (decide (c_parent_id obj_in <> 0)) as [Hne | Heq].
    + destruct (depts db !! c_parent_id obj_in) as [d|] eqn:Hd.
      * split; [discriminate | intros [_ H]; discriminate H].
      * split; [now split | reflexivity].
    + split; [discriminate | intros [H _]; now elim Heq].
  - intros db' H. now destruct (create_dept_inv db db' obj_in H) as (_ & H1 & H2 & H3).
Qed.

(** X14.  Creating departments keeps the closure table consistent with
    the parent pointers: if it is before [create_dept], it is after. *)
Theorem create_dept_keeps_consistent (db db' : DB) (obj_in : DeptCreate) :
  closure_consistent db ->
  create_dept db obj_in = Ok db' ->
  closure_consistent db'.
Proof.
  intros (Hnext & Hkeys & Hrows & Hcons) Hc.
  destruct (create_dept_inv db db' obj_in Hc) as (Hp & Hd & Hn & Hcl).
  assert (Hfresh : depts db !! next_id db = None).
  { destruct (depts db !! next_id db) as [d|] eqn:E; [| reflexivity].
    apply Hkeys in E. lia. }
  assert (Hold : forall j, j <> next_id db -> rows_of db' j = rows_of db j).
  { intros j Hj. unfold rows_of. rewrite Hcl, !filter_app_rows.
    rewrite (filter_none j (map _ _)), (filter_none j [_]), !app_nil_r; [reflexivity | |].
    - intros r Hr. apply list_elem_of_singleton in Hr as ->. cbn. congruence.
    - intros r Hr. apply list_elem_of_fmap in Hr as (item & -> & _). cbn. congruence. }
  assert (Hnew : rows_of db' (next_id db)
                 = map (bump (next_id db)) (rows_of db (c_parent_id obj_in))
                   ++ [row (next_id db) (next_id db) 0]).
  { unfold rows_of at 1. rewrite Hcl, !filter_app_rows.
    rewrite (filter_none (next_id db) (closure db)).
    - rewrite (filter_all (next_id db) (map _ _)), (filter_all (next_id db) [_]).
      + reflexivity.
      + intros r Hr. now apply list_elem_of_singleton in Hr as ->.
      + intros r Hr. now apply list_elem_of_fmap in Hr as (item & -> & _).
    - intros r Hr E. apply Hrows in Hr as [d Hr]. rewrite E, Hfresh in Hr. discriminate Hr. }
  assert (Hparent_old : c_parent_id obj_in <> next_id db).
  { destruct Hp as [-> | [d Hd']]; [lia |]. apply Hkeys in Hd'. lia. }
  split; [lia |]. split; [| split].
  - intros id d. rewrite Hd, Hn. destruct (decide (id = next_id db)) as [-> | Hid].
    + rewrite lookup_insert_eq. intros [= <-]. split; [lia |]. cbn [new_dept parent_id].
      destruct Hp as [H0 | [p Hpd]]; [now left | right].
      rewrite lookup_insert_ne by congruence. eauto.
    + rewrite lookup_insert_ne by congruence. intros Hid'.
      destruct (Hkeys id d Hid') as [Hrange Hpar]. split; [lia |].
      destruct Hpar as [H0 | [p Hpd]]; [now left | right].
      destruct (decide (parent_id d = next_id db)) as [E | E].
      * rewrite E, Hfresh in Hpd. discriminate Hpd.
      * rewrite lookup_insert_ne by congruence. eauto.
  - intros r. rewrite Hcl, Hd, !elem_of_app. intros [Hr | [Hr | Hr]].
    + apply Hrows in Hr as [d Hr]. exists d.
      rewrite lookup_insert_ne; [exact Hr |]. intros E. rewrite <- E, Hfresh in Hr.
      discriminate Hr.
    + apply list_elem_of_fmap in Hr as (item & -> & _). cbn. rewrite lookup_insert_eq. eauto.
    + apply list_elem_of_singleton in Hr as ->. cbn. rewrite lookup_insert_eq. eauto.
  - intros id d. rewrite Hd. destruct (decide (id = next_id db)) as [-> | Hid].
    + rewrite lookup_insert_eq. intros [= <-]. cbn [new_dept parent_id].
      now rewrite Hnew, (Hold _ Hparent_old).
    + rewrite lookup_insert_ne by congruence. intros Hid'.
      rewrite (Hold id Hid), (Hcons id d Hid').
      destruct (Hkeys id d Hid') as [_ [H0 | [p Hpd]]].
      * rewrite H0. rewrite (Hold 0) by lia. reflexivity.
      * rewrite (Hold (parent_id d)); [reflexivity |].
        intros E. rewrite E, Hfresh in Hpd. discriminate Hpd.
Qed.

Lemma empty_db_consistent : closure_consistent empty_db.
Proof.
  unfold closure_consistent, empty_db. cbn. split; [lia |].
  split; [intros id d H; rewrite lookup_empty in H; discriminate H |].
  split; [intros r H; inversion H |].
  intros id d H. rewrite lookup_empty in H. discriminate H.
Qed.

(** X15.  An update that does not change the parent and goes through
    leaves the closure table and the key counter untouched, rewrites only
    the row of that department, keeps its parent, and keeps a consistent
    closure table consistent. *)
Theorem update_dept_same_parent (db db' : DB) (obj_in : DeptUpdate) (d : Dept) :
  depts db !! u_id obj_in = Some d ->
  parent_id d = u_parent_id obj_in ->
  update_dept db obj_in = Ok db' ->
  closure db' = closure db
  /\ next_id db' = next_id db
  /\ depts db' = <[u_id obj_in := update_from_dict d obj_in]> (depts db)
  /\ parent_id (update_from_dict d obj_in) = parent_id d
  /\ (closure_consistent db -> closure_consistent db').
Proof.
  intros Hd Hp. unfold update_dept, get. rewrite Hd.
  rewrite decide_False by (intros H; now apply H).
  intros [= <-]. cbn [depts closure next_id].
  assert (Hpar : parent_id (update_from_dict d obj_in) = parent_id d).
  { unfold update_from_dict. cbn [parent_id]. now destruct (u_parent_sent obj_in). }
  repeat (split; [reflexivity || exact Hpar |]).
  intros (Hnext & Hkeys & Hrows & Hcons).
  assert (Hsome : forall j, is_Some (depts db !! j) ->
                    is_Some (<[u_id obj_in := update_from_dict d obj_in]> (depts db) !! j)).
  { intros j Hj. destruct (decide (u_id obj_in = j)) as [<- | Hne].
    - rewrite lookup_insert_eq. eauto.
    - now rewrite lookup_insert_ne. }
  unfold closure_consistent, rows_of. cbn [depts closure next_id].
  split; [exact Hnext |]. split; [| split].
  - intros id d'. destruct (decide (u_id obj_in = id)) as [<- | Hne].
    + rewrite lookup_insert_eq. intros [= <-]. rewrite Hpar.
      destruct (Hkeys _ _ Hd) as [Hr Hpd]. split; [exact Hr |].
      destruct Hpd as [H0 | Hs]; [now left | right; now apply Hsome].
    + rewrite lookup_insert_ne by exact Hne. intros Hid.
      destruct (Hkeys _ _ Hid) as [Hr Hpd]. split; [exact Hr |].
      destruct Hpd as [H0 | Hs]; [now left | right; now apply Hsome].
  - intros r Hr. apply Hsome, Hrows, Hr.
  - intros id d'. destruct (decide (u_id obj_in = id)) as [<- | Hne].
    + rewrite lookup_insert_eq. intros [= <-]. rewrite Hpar. now apply Hcons.
    + rewrite lookup_insert_ne by exact Hne. apply Hcons.
Qed.

(** X16.  An update that changes the parent and goes through has
    removed every closure row in which the department is the ancestor of
    another one and put none back: afterwards its only row as ancestor is
    its self row.  The rows that mention it on neither side are exactly
    those there before. *)
Theorem update_dept_drops_descendant_rows (db db' : DB) (obj_in : DeptUpdate) (d : Dept) :
  depts db !! u_id obj_in = Some d ->
  parent_id d <> u_parent_id obj_in ->
  update_dept db obj_in = Ok db' ->
  (forall r, r ∈ closure db' -> ancestor r = u_id obj_in ->
     r = row (u_id obj_in) (u_id obj_in) 0)
  /\ (forall r, ancestor r <> u_id obj_in -> descendant r <> u_id obj_in ->
        (r ∈ closure db' <-> r ∈ closure db)).
Proof.
  intros Hd Hne Hok.
  destruct (update_dept_closure_rows db obj_in d Hd Hne) as (db1 & Hu & Hcl).
  rewrite Hu in Hok. injection Hok as ->.
  cbn zeta in Hcl. rewrite Hcl. clear Hcl Hu.
  split.
  - intros r Hr Ha. rewrite !elem_of_app in Hr. destruct Hr as [Hr | [Hr | Hr]].
    + apply list_elem_of_filter in Hr as [_ Hr]. apply list_elem_of_filter in Hr as [Hr _].
      now elim Hr.
    + apply list_elem_of_fmap in Hr as (item & -> & Hitem).
      apply list_elem_of_filter in Hitem as [_ Hitem].
      apply list_elem_of_filter in Hitem as [_ Hitem].
      apply list_elem_of_filter in Hitem as [Hitem _]. cbn in Ha. now elim Hitem.
    + now apply list_elem_of_singleton in Hr.
  - intros r Ha Hdesc. rewrite !elem_of_app, !list_elem_of_filter. split.
    + intros [(_ & _ & Hr) | [Hr | Hr]]; [exact Hr | |].
      * apply list_elem_of_fmap in Hr as (item & -> & _). now elim Hdesc.
      * apply list_elem_of_singleton in Hr as ->. now elim Hdesc.
    + intros Hr. left. now repeat split.
Qed.

(** X17.  Deleting is idempotent: [get] does not look at [is_deleted], so
    a second [delete_dept] of the same department succeeds and changes
    nothing. *)
Theorem delete_dept_twice (db db1 : DB) (dept_id : Z) :
  delete_dept db dept_id = Ok db1 ->
  delete_dept db1 dept_id = Ok db1.
Proof.
  unfold delete_dept, get. destruct (depts db !! dept_id) as [d|] eqn:Hd; [| discriminate].
  intros [= <-]. cbn [depts closure next_id]. rewrite lookup_insert_eq.
  cbn [name desc order parent_id]. rewrite insert_insert_eq. do 2 f_equal.
  apply list_filter_filter_l. tauto.
Qed.

(** X18.  Once a department has been deleted its closure rows are gone,
    so that a department created under it afterwards, when the creation
    goes through, gets its self row and no ancestor row. *)
Theorem create_dept_under_deleted (db db1 db2 : DB) (parent : Z) (obj_in : DeptCreate) :
  delete_dept db parent = Ok db1 ->
  c_parent_id obj_in = parent ->
  create_dept db1 obj_in = Ok db2 ->
  is_deleted <$> depts db1 !! parent = Some true
  /\ rows_of db1 parent = []
  /\ closure db2 = closure db1 ++ [row (next_id db1) (next_id db1) 0].
Proof.
  intros Hdel Hp Hc.
  destruct (create_dept_inv db1 db2 obj_in Hc) as (_ & _ & _ & Hcl).
  assert (Hdb1 : is_deleted <$> depts db1 !! parent = Some true
                 /\ rows_of db1 parent = []).
  { unfold delete_dept, get in Hdel.
    destruct (depts db !! parent) as [d|] eqn:Hd; [| discriminate Hdel].
    injection Hdel as <-. split.
    - cbn [depts]. now rewrite lookup_insert_eq.
    - unfold rows_of. cbn [closure]. apply filter_none.
      intros r Hr. now apply list_elem_of_filter in Hr as [Hr _]. }
  destruct Hdb1 as [H1 H2]. split; [exact H1 |]. split; [exact H2 |].
  rewrite Hcl, Hp, H2. reflexivity.
Qed.

End ClosureFacts.

(* ===================================================================== *)
(** * Properties of the department tree                                   *)
(* ===================================================================== *)

Section TreeFacts.

Import Dept DeptTree.

Variable all_depts : list (Z * Dept).

Lemma build_tree_step (depth : nat) (p : Z) (ts : list tree) :
  build_tree (S depth) all_depts p = Some ts <->
  Forall2 (fun dept t =>
             exists cs, build_tree depth all_depts (fst dept) = Some cs
                        /\ t = Node (fst dept) (name (snd dept)) (desc (snd dept))
                                 (order (snd dept)) (parent_id (snd dept)) cs)
          (rows_under all_depts p) ts.
Proof.
  cbn [build_tree]. rewrite mapM_Some. unfold rows_under.
  split; intros H; eapply Forall2_impl; try exact H; cbn; intros dept t.
  - destruct (build_tree depth all_depts (fst dept)) as [cs|]; [| discriminate].
    intros [= <-]. eauto.
  - intros (cs & -> & ->). reflexivity.
Qed.

Lemma unique_row (d1 d2 : Z * Dept) :
  NoDup (map fst all_depts) -> d1 ∈ all_depts -> d2 ∈ all_depts -> fst d1 = fst d2 ->
  d1 = d2.
Proof.
  induction all_depts as [|x l IH]; intros Hnd H1 H2 E; [inversion H1 |].
  cbn [map] in Hnd. apply NoDup_cons in Hnd as [Hx Hnd].
  apply elem_of_cons in H1 as [-> | H1]; apply elem_of_cons in H2 as [-> | H2].
  - reflexivity.
  - exfalso. apply Hx. rewrite E. apply list_elem_of_fmap. eauto.
  - exfalso. apply Hx. rewrite <- E. apply list_elem_of_fmap. eauto.
  - now apply IH.
Qed.

Lemma chain_head (path : list Z) (p : Z) :
  chain all_depts path p -> (path = [] /\ p = 0) \/ exists tl, path = p :: tl.
Proof. destruct 1; [now left | right; eauto]. Qed.

Lemma chain_ids (path : list Z) (p : Z) :
  chain all_depts path p -> forall x, x ∈ path -> x ∈ map fst all_depts.
Proof.
  induction 1 as [|path p dept _ IH Hin _]; intros x Hx; [inversion Hx |].
  apply elem_of_cons in Hx as [-> | Hx]; [| now apply IH].
  apply list_elem_of_fmap. eauto.
Qed.

Lemma chain_parent (path : list Z) (p : Z) :
  chain all_depts path p ->
  forall l1 x l2, path = l1 ++ x :: l2 ->
    exists dept, dept ∈ all_depts /\ fst dept = x /\ parent_id (snd dept) = hd 0 l2.
Proof.
  induction 1 as [|path p dept Hc IH Hin Hp]; intros l1 x l2 E.
  - destruct l1; discriminate E.
  - destruct l1 as [|y l1]; cbn [app] in E; injection E as E1 E2.
    + subst x path. exists dept. repeat split; [exact Hin |].
      destruct (chain_head _ _ Hc) as [[E ->] | [tl E]]; [now subst l2 |].
      rewrite Hp. now subst l2.
    + now apply (IH l1 x l2).
Qed.

Lemma chain_nodup (path : list Z) (p : Z) :
  NoDup (map fst all_depts) -> 0 ∉ map fst all_depts ->
  chain all_depts path p -> NoDup path.
Proof.
  intros Hnd H0. induction 1 as [|path p dept Hc IH Hin Hp]; [constructor |].
  apply NoDup_cons. split; [| exact IH].
  intros Hmem. apply list_elem_of_split in Hmem as (l1 & l2 & E).
  destruct (chain_parent _ _ Hc l1 (fst dept) l2 E) as (dept' & Hin' & Hid & Hpar).
  assert (dept' = dept) by (now apply unique_row). subst dept'.
  destruct (chain_head _ _ Hc) as [[Epath _] | [tl Epath]].
  { rewrite Epath in E. destruct l1; discriminate E. }
  assert (Hpin : p ∈ map fst all_depts).
  { apply (chain_ids _ _ Hc). rewrite Epath. left. }
  rewrite Hp in Hpar. destruct l2 as [|y l2]; cbn [hd] in Hpar.
  { rewrite Hpar in Hpin. exact (H0 Hpin). }
  subst y. rewrite E in IH, Epath. destruct l1 as [|z l1]; cbn [app] in *.
  - injection Epath as E1 _. rewrite <- E1 in IH.
    apply NoDup_cons in IH as [IH _]. apply IH. left.
  - injection Epath as E1 _. subst z.
    apply NoDup_cons in IH as [IH _]. apply IH.
    rewrite elem_of_app. right. right. left.
Qed.

Lemma build_tree_total :
  NoDup (map fst all_depts) -> 0 ∉ map fst all_depts ->
  forall (depth : nat) (path : list Z) (p : Z),
    chain all_depts path p ->
    (length all_depts < depth + length path)%nat ->
    is_Some (build_tree depth all_depts p).
Proof.
  intros Hnd H0. induction depth as [|depth IH]; intros path p Hc Hlen.
  - exfalso. pose proof (chain_nodup _ _ Hnd H0 Hc) as Hpath.
    assert (Hsub : path ⊆ map fst all_depts) by (intros x; apply (chain_ids _ _ Hc)).
    pose proof (submseteq_length _ _ (NoDup_submseteq _ _ Hpath Hsub)) as Hle.
    rewrite length_map in Hle. cbn in Hlen. lia.
  - cbn [build_tree]. apply mapM_is_Some, Forall_forall. intros dept Hd.
    apply list_elem_of_filter in Hd as [Hp Hin]. cbn.
    destruct (IH (fst dept :: path) (fst dept)) as [cs Hcs].
    + now apply (chain_step all_depts path p dept).
    + cbn [length]. lia.
    + rewrite Hcs. eauto.
Qed.

Lemma build_tree_root_cycle (dept : Z * Dept) :
  dept ∈ all_depts -> fst dept = 0 -> parent_id (snd dept) = 0 ->
  forall depth, build_tree depth all_depts 0 = None.
Proof.
  intros Hin Hid Hp. induction depth as [|depth IH]; [reflexivity |].
  destruct (build_tree (S depth) all_depts 0) as [ts|] eqn:E; [| reflexivity].
  exfalso. apply build_tree_step in E.
  assert (Hrow : dept ∈ rows_under all_depts 0) by (apply list_elem_of_filter; now split).
  apply list_elem_of_lookup in Hrow as (i & Hi).
  destruct (Forall2_lookup_l _ _ _ _ _ E Hi) as (t' & _ & cs & Hcs & _).
  rewrite Hid, IH in Hcs. discriminate Hcs.
Qed.

(** X19.  When the rows returned by the query have distinct ids and none
    has id 0, building the tree from the virtual root ends: the nesting of
    [build_tree] calls never exceeds the number of rows plus one, whatever
    the parent pointers are (cycles among them are never entered).  A row
    with id 0 and parent 0, on the contrary, makes the call fail at every
    depth. *)
Theorem get_dept_tree_terminates :
  (NoDup (map fst all_depts) -> 0 ∉ map fst all_depts ->
   is_Some (get_dept_tree (S (length all_depts)) all_depts))
  /\ (forall dept, dept ∈ all_depts -> fst dept = 0 -> parent_id (snd dept) = 0 ->
        forall depth, get_dept_tree depth all_depts = None).
Proof.
  split.
  - intros Hnd H0. unfold get_dept_tree.
    apply (build_tree_total Hnd H0 _ [] 0); [constructor | cbn; lia].
  - intros dept Hin Hid Hp depth. now apply (build_tree_root_cycle dept).
Qed.

Lemma nodes_unfold (t : tree) : nodes t = t :: forest_nodes (children t).
Proof.
  destruct t as [id n ds o p cs]. reflexivity.
Qed.

Lemma build_tree_top (depth : nat) (p : Z) (ts : list tree) :
  build_tree depth all_depts p = Some ts ->
  map node_id ts = map fst (rows_under all_depts p).
Proof.
  destruct depth as [|depth]; [discriminate |].
  rewrite build_tree_step. generalize (rows_under all_depts p). intros rows H.
  induction H as [|dept t rows ts (cs & _ & ->) _ IH]; [reflexivity |].
  cbn [map node_id]. now rewrite IH.
Qed.

Lemma build_tree_nodes :
  forall (depth : nat) (p : Z) (ts : list tree),
    build_tree depth all_depts p = Some ts ->
    forall n, n ∈ forest_nodes ts ->
      (exists dept, dept ∈ all_depts /\ node_of_row n dept)
      /\ map node_id (children n) = map fst (rows_under all_depts (node_id n))
      /\ (node_parent_id n = p \/ node_parent_id n ∈ map fst all_depts).
Proof.
  induction depth as [|depth IH]; intros p ts Hb n Hn; [discriminate Hb |].
  apply build_tree_step in Hb.
  unfold forest_nodes in Hn. apply list_elem_of_In, in_flat_map in Hn as (t & Ht & Hn).
  apply list_elem_of_In, list_elem_of_lookup in Ht as (i & Hi).
  destruct (Forall2_lookup_r _ _ _ _ _ Hb Hi) as (dept & Hdept & cs & Hcs & ->).
  apply list_elem_of_lookup_2, list_elem_of_filter in Hdept as [Hp Hin].
  rewrite nodes_unfold in Hn. cbn [children] in Hn.
  apply list_elem_of_In, elem_of_cons in Hn as [-> | Hn].
  - split; [exists dept; split; [exact Hin | now exists cs] |].
    cbn [children node_id node_parent_id]. split; [| now left].
    apply (build_tree_top depth _ _ Hcs).
  - destruct (IH _ _ Hcs n Hn) as (H1 & H2 & H3). repeat split; [exact H1 | exact H2 |].
    right. destruct H3 as [-> | H3]; [| exact H3].
    apply list_elem_of_fmap. eauto.
Qed.

(** X20.  In a tree that [get_dept_tree] returns, the top level is the
    rows with parent 0 in query order; every node carries the fields of a
    returned row, and its children are the rows naming it as parent, in
    query order; and the parent of every node is 0 or the id of a returned
    row, so a row whose parent was not returned (soft-deleted, or filtered
    out by name) is left out together with everything below it. *)
Theorem get_dept_tree_shape (depth : nat) (ts : list tree) :
  get_dept_tree depth all_depts = Some ts ->
  map node_id ts = map fst (rows_under all_depts 0)
  /\ (forall n, n ∈ forest_nodes ts ->
        (exists dept, dept ∈ all_depts /\ node_of_row n dept)
        /\ map node_id (children n) = map fst (rows_under all_depts (node_id n))
        /\ (node_parent_id n = 0 \/ node_parent_id n ∈ map fst all_depts)).
Proof.
  unfold get_dept_tree. intros H. split.
  - now apply (build_tree_top depth).
  - now apply (build_tree_nodes depth).
Qed.

End TreeFacts.

(* ===================================================================== *)
(** * Properties of text and stream filtering                             *)
(* ===================================================================== *)

Section StreamFacts.

Import Filter FilterOps.

Local Open Scope nat_scope.

Variable is_space : ascii -> bool.
Variable lower : string -> string.

(** What is used of [str.lower]: it gives the empty string for the empty
    string and for no other. *)
Hypothesis lower_empty : lower EmptyString = EmptyString.
Hypothesis lower_nonempty : forall s, s <> EmptyString -> lower s <> EmptyString.

(** The flag of [contains_sensitive_word], for a filter built from
    [words]. *)
Lemma contains_flag (self : SensitiveWordFilter) (words : list string) (text : string) :
  built_from is_space lower self words ->
  fst (contains_sensitive_word lower self text) = true <-> hits is_space lower words text.
Proof.
  intros [Hen Haut]. unfold contains_sensitive_word, hits. rewrite Haut, Hen. cbn [negb orb].
  split.
  - destruct ((size (add_words is_space lower 0 words ∅) =? 0) || String.eqb text EmptyString);
      [discriminate |].
    destruct (iter (add_words is_space lower 0 words ∅) (lower text)) as [|[e [i original]] rest] eqn:Hit;
      [discriminate |].
    intros _.
    destruct (iter_sound (add_words is_space lower 0 words ∅) (lower text) e (i, original))
      as (key & Hkey & Hocc); [rewrite Hit; now left |].
    apply add_words_lookup in Hkey as [Hkey | (t & Hb & -> & _)].
    + rewrite lookup_empty in Hkey. discriminate Hkey.
    + exists t. now split.
  - intros (w & Hb & Hocc).
    destruct (add_words_present is_space lower words 0 ∅ w Hb) as (v & Hv).
    assert (Hsize : size (add_words is_space lower 0 words ∅) <> 0).
    { apply map_size_non_empty_iff. intros E. rewrite E, lookup_empty in Hv.
      discriminate Hv. }
    apply Nat.eqb_neq in Hsize. rewrite Hsize.
    assert (Htext : text <> EmptyString).
    { intros ->. rewrite lower_empty in Hocc.
      apply (occurs_nonempty _ _ Hocc); [| reflexivity].
      apply lower_nonempty, Hb. }
    apply String.eqb_neq in Htext. rewrite Htext. cbn [orb].
    destruct (iter (add_words is_space lower 0 words ∅) (lower text)) as [|[e [i original]] rest] eqn:Hit;
      [| reflexivity].
    exfalso. eapply iter_complete; [exact Hv | apply lower_nonempty, Hb | exact Hocc
                                    | exact Hit].
Qed.

Lemma contains_flag_off (self : SensitiveWordFilter) (text : string) :
  enabled self = false -> contains_sensitive_word lower self text = (false, None).
Proof.
  intros H. unfold contains_sensitive_word. rewrite H. now destruct (automaton self).
Qed.

(** X21.  [filter_text] returns its argument or the reminder message,
    nothing else: the message when a configured word occurs in the text,
    letter case apart, and the text itself otherwise; a filter that is
    switched off returns every text as it is. *)
Theorem filter_text_spec (self : SensitiveWordFilter) (words : list string)
    (response_message text : string) :
  (built_from is_space lower self words -> hits is_space lower words text ->
   filter_text lower self response_message text = response_message)
  /\ (built_from is_space lower self words -> ~ hits is_space lower words text ->
      filter_text lower self response_message text = text)
  /\ (enabled self = false -> filter_text lower self response_message text = text).
Proof.
  unfold filter_text. split; [| split].
  - intros Hb Hh. pose proof (proj2 (contains_flag self words text Hb) Hh) as Hf.
    destruct (String.eqb_spec text EmptyString) as [-> | _].
    + destruct Hh as (w & Hw & Hocc). exfalso. rewrite lower_empty in Hocc.
      apply (occurs_nonempty _ _ Hocc); [apply lower_nonempty, Hw | reflexivity].
    + destruct (contains_sensitive_word lower self text) as [c m]. cbn in Hf. now rewrite Hf.
  - intros Hb Hh. destruct (String.eqb text EmptyString); [reflexivity |].
    destruct (contains_sensitive_word lower self text) as [[|] m] eqn:E; [| reflexivity].
    exfalso. apply Hh, (contains_flag self words text Hb). now rewrite E.
  - intros Hoff. rewrite (contains_flag_off self text Hoff).
    now destruct (String.eqb text EmptyString).
Qed.

Section WithParser.

Variable json_loads : string -> loads_result.

(** X22.  [filter_streaming_chunk] never rewrites a chunk: it returns the
    chunk or blocks it.  It returns the chunk whenever the filter is
    switched off, the chunk does not start with [data:], the content is
    the end marker, the content parses to something that is not an object,
    or the object's [answer] or [text] field is not a string, whatever the
    other fields hold. *)
Theorem filter_streaming_chunk_fail_open (self : SensitiveWordFilter) (chunk : string) :
  let r := filter_streaming_chunk is_space lower json_loads self chunk in
  (r = None \/ r = Some chunk)
  /\ (enabled self = false -> r = Some chunk)
  /\ (String.prefix "data:" chunk = false -> r = Some chunk)
  /\ (data_content is_space chunk = "[DONE]" -> r = Some chunk)
  /\ (json_loads (data_content is_space chunk) = Loaded ENotObject -> r = Some chunk)
  /\ (forall fields key other,
        json_loads (data_content is_space chunk) = Loaded (EObject fields) ->
        key = "answer" \/ key = "text" ->
        fields !! key = Some (JOther other) -> r = Some chunk).
Proof.
  intros r. subst r. unfold filter_streaming_chunk.
  split; [| split; [| split; [| split; [| split]]]].
  - destruct (_ || _); [now right |]. destruct (String.prefix _ _); [| now right].
    destruct (_ && _); [| now right].
    destruct (json_loads _) as [[fields |] | |]; try now right.
    + destruct (text_to_check fields); [| now right].
      destruct (_ && _); [now left | now right].
    + destruct (fst _); [now left | now right].
  - intros ->. now rewrite orb_true_r.
  - intros ->. now destruct (_ || _).
  - intros ->. destruct (_ || _); [reflexivity |]. now destruct (String.prefix _ _).
  - intros ->. destruct (_ || _); [reflexivity |]. destruct (String.prefix _ _); [| reflexivity].
    now destruct (_ && _).
  - intros fields key other -> Hkey Hf.
    assert (Hnone : text_to_check fields = None).
    { unfold text_to_check, add_field. destruct Hkey as [-> | ->].
      - now rewrite Hf.
      - rewrite Hf. now destruct (fields !! "answer") as [[|]|]. }
    rewrite Hnone. destruct (_ || _); [reflexivity |].
    destruct (String.prefix _ _); [| reflexivity]. now destruct (_ && _).
Qed.

(** X23.  For a filter built from [words] and a [data:] chunk whose
    content is neither empty nor the end marker: content that is not JSON
    is blocked exactly when a configured word occurs in it; an object whose
    fields are usable is blocked exactly when a configured word occurs in
    the text of [answer], [text] and [content] joined without separator. *)
Theorem filter_streaming_chunk_blocks (self : SensitiveWordFilter) (words : list string)
    (chunk : string) :
  built_from is_space lower self words ->
  chunk <> EmptyString ->
  String.prefix "data:" chunk = true ->
  data_content is_space chunk <> EmptyString ->
  data_content is_space chunk <> "[DONE]" ->
  (json_loads (data_content is_space chunk) = JSONDecodeError ->
   (filter_streaming_chunk is_space lower json_loads self chunk = None <-> hits is_space lower words (data_content is_space chunk)))
  /\ (forall fields text,
        json_loads (data_content is_space chunk) = Loaded (EObject fields) ->
        text_to_check fields = Some text ->
        (filter_streaming_chunk is_space lower json_loads self chunk = None <-> hits is_space lower words text)).
Proof.
  intros Hb Hc Hp Hne Hdone. unfold filter_streaming_chunk.
  apply String.eqb_neq in Hc, Hne, Hdone.
  rewrite Hc, (proj1 Hb), Hp, Hne, Hdone. cbn [negb orb andb].
  split.
  - intros ->. rewrite <- (contains_flag self words _ Hb).
    destruct (fst _); split; (reflexivity || discriminate).
  - intros fields text -> ->. rewrite <- (contains_flag self words _ Hb).
    destruct (String.eqb_spec text EmptyString) as [-> | _]; cbn [negb andb].
    + split; [discriminate |]. intros Hf. exfalso.
      apply (contains_flag self words _ Hb) in Hf as (w & Hw & Hocc).
      rewrite lower_empty in Hocc.
      apply (occurs_nonempty _ _ Hocc); [apply lower_nonempty, Hw | reflexivity].
    + destruct (fst _); split; (reflexivity || discriminate).
Qed.

End WithParser.

(** X24.  [reload_sensitive_words] always reports success.  A filter that
    is switched off stays as it is, switched off.  A filter that is
    switched on afterwards flags a text exactly when a word of the new list
    occurs in it: nothing of the previous dictionary is kept. *)
Theorem reload_sensitive_words_spec (self : SensitiveWordFilter) (words : list string) :
  snd (reload_sensitive_words is_space lower self words) = true
  /\ (enabled self = false -> fst (reload_sensitive_words is_space lower self words) = self)
  /\ (enabled self = true ->
      built_from is_space lower (fst (reload_sensitive_words is_space lower self words)) words
      /\ forall text,
           fst (contains_sensitive_word lower (fst (reload_sensitive_words is_space lower self words)) text)
           = true <-> hits is_space lower words text).
Proof.
  unfold reload_sensitive_words, _build_automaton. cbn [fst snd].
  split; [reflexivity |]. split.
  - now intros ->.
  - intros Hen. rewrite Hen. cbn [negb].
    assert (Hb : built_from is_space lower {| automaton := Some (add_words is_space lower 0 words ∅); enabled := true |}
                   words) by (split; reflexivity).
    split; [exact Hb |]. intros text. now apply contains_flag.
Qed.

End StreamFacts.

(* ===================================================================== *)
(** * Properties of the environment file reader                           *)
(* ===================================================================== *)

Section EnvFacts.

Import Filter EnvFile.

Variable is_space : ascii -> bool.

Lemma lstrip_is_lstrip_by (s : list ascii) : lstrip is_space s = lstrip_by is_space s.
Proof. induction s as [|c s IH]; [reflexivity |]. cbn. now rewrite IH. Qed.

Lemma strip_chars_is_strip_by (s : list ascii) : strip_chars is_space s = strip_by is_space s.
Proof. unfold strip_chars, strip_by. now rewrite !lstrip_is_lstrip_by. Qed.

Lemma lstrip_by_all (f : ascii -> bool) (ws s : list ascii) :
  forallb f ws = true -> lstrip_by f (ws ++ s) = lstrip_by f s.
Proof.
  induction ws as [|c ws IH]; intros H; [reflexivity |].
  cbn [forallb] in H. apply andb_true_iff in H as [Hc Hws].
  cbn [app lstrip_by]. rewrite Hc. now apply IH.
Qed.

Lemma lstrip_by_head_ok (f : ascii -> bool) (s : list ascii) :
  head_ok f s -> lstrip_by f s = s.
Proof. destruct s as [|c s]; [reflexivity |]. cbn. now intros ->. Qed.

Lemma lstrip_by_app (f : ascii -> bool) (x y : list ascii) :
  head_ok f y -> lstrip_by f (x ++ y) = lstrip_by f x ++ y.
Proof.
  intros Hy. induction x as [|c x IH]; [now apply lstrip_by_head_ok |].
  cbn [app lstrip_by]. now destruct (f c).
Qed.

Lemma forallb_rev (f : ascii -> bool) (s : list ascii) :
  forallb f s = true -> forallb f (rev s) = true.
Proof.
  rewrite !forallb_forall. intros H c Hc. apply H. now apply in_rev.
Qed.

Lemma head_ok_app (f : ascii -> bool) (a b : list ascii) :
  head_ok f a -> head_ok f b -> head_ok f (a ++ b).
Proof. now destruct a. Qed.

Lemma strip_by_pad (f : ascii -> bool) (ws1 core ws2 : list ascii) :
  forallb f ws1 = true -> forallb f ws2 = true -> trimmed f core ->
  strip_by f (ws1 ++ core ++ ws2) = core.
Proof.
  intros H1 H2 [Hh Ht]. unfold strip_by. rewrite (lstrip_by_all f ws1 _ H1).
  destruct core as [|c core].
  - cbn [app]. rewrite <- (app_nil_r ws2), (lstrip_by_all f ws2 [] H2). reflexivity.
  - rewrite (lstrip_by_head_ok f ((c :: core) ++ ws2)) by exact Hh.
    rewrite rev_app_distr, (lstrip_by_all f _ _ (forallb_rev f ws2 H2)).
    rewrite (lstrip_by_head_ok f _ Ht). apply rev_involutive.
Qed.

Lemma split_eq_first (key value : list ascii) :
  "="%char ∉ key -> split_eq (key ++ "="%char :: value) = Some (key, value).
Proof.
  induction key as [|c key IH]; intros H; [reflexivity |].
  cbn [app split_eq]. destruct (Ascii.eqb_spec c "=") as [-> | _].
  - exfalso. apply H. left.
  - rewrite IH; [reflexivity |]. intros Hin. apply H. now right.
Qed.

Lemma quote_not_space (c : ascii) :
  is_space double_quote = false -> is_space single_quote = false ->
  is_quote c = true -> is_space c = false.
Proof.
  intros Hd Hs. unfold is_quote. rewrite orb_true_iff, !Ascii.eqb_eq.
  now intros [-> | ->].
Qed.

Lemma space_not_eq (ws : list ascii) :
  is_space "="%char = false -> forallb is_space ws = true -> "="%char ∉ ws.
Proof.
  intros He. rewrite forallb_forall. intros H Hin. apply list_elem_of_In, H in Hin.
  rewrite He in Hin. discriminate Hin.
Qed.

Lemma quotes_head_ok (q : list ascii) :
  is_space double_quote = false -> is_space single_quote = false ->
  forallb is_quote q = true -> head_ok is_space q.
Proof.
  intros Hd Hs. destruct q as [|c q]; [easy |]. cbn [forallb head_ok].
  rewrite andb_true_iff. intros [H _]. now apply quote_not_space.
Qed.

Lemma lstrip_by_all_nil (f : ascii -> bool) (ws : list ascii) :
  forallb f ws = true -> lstrip_by f ws = [].
Proof. intros H. rewrite <- (app_nil_r ws). now rewrite (lstrip_by_all f ws [] H). Qed.

Lemma strip_by_keeps_prefix (f : ascii -> bool) (ws A B : list ascii) (c : ascii) :
  forallb f ws = true -> head_ok f A -> A <> [] -> f c = false ->
  strip_by f (ws ++ A ++ c :: B) = A ++ c :: rev (lstrip_by f (rev B)).
Proof.
  intros Hws HA Hne Hc. unfold strip_by. rewrite (lstrip_by_all f ws _ Hws).
  rewrite (lstrip_by_head_ok f (A ++ c :: B)) by (destruct A; [now elim Hne | exact HA]).
  rewrite rev_app_distr. cbn [rev]. rewrite <- app_assoc. cbn [app].
  rewrite (lstrip_by_app f (rev B) (c :: rev A)) by exact Hc.
  rewrite rev_app_distr. cbn [rev]. rewrite rev_involutive, <- app_assoc. reflexivity.
Qed.

Lemma strip_by_rstrip (f : ascii -> bool) (ws1 core ws2 : list ascii) :
  forallb f ws1 = true -> forallb f ws2 = true -> trimmed f core ->
  strip_by f (rev (lstrip_by f (rev (ws1 ++ core ++ ws2)))) = core.
Proof.
  intros H1 H2 Hcore. rewrite !rev_app_distr, <- app_assoc.
  rewrite (lstrip_by_all f _ _ (forallb_rev f ws2 H2)).
  destruct core as [|c core'] eqn:Ec.
  - cbn [rev app]. now rewrite (lstrip_by_all_nil f _ (forallb_rev f ws1 H1)).
  - rewrite (lstrip_by_head_ok f (rev (c :: core') ++ rev ws1)).
    + rewrite rev_app_distr, !rev_involutive.
      rewrite <- (app_nil_r (c :: core')) at 1.
      now apply (strip_by_pad f ws1 (c :: core') []).
    + destruct Hcore as [_ Ht]. destruct (rev (c :: core')) eqn:E; [| exact Ht].
      apply (f_equal (@length ascii)) in E. rewrite length_rev in E. discriminate E.
Qed.

Lemma parse_line_unfold (line : string) :
  parse_line is_space line =
  let l := strip_chars is_space (list_ascii_of_string line) in
  if match l with c :: _ => Ascii.eqb c "#" | [] => false end then None
  else
    match split_eq l with
    | Some (key, value) =>
        Some (string_of_list_ascii (strip_chars is_space key),
              string_of_list_ascii (strip_by is_quote (strip_chars is_space value)))
    | None => None
    end.
Proof.
  unfold parse_line. cbv zeta.
  destruct (strip_chars is_space (list_ascii_of_string line)) as [|c l]; [reflexivity |].
  destruct c as [[] [] [] [] [] [] [] []]; reflexivity.
Qed.

(** X25.  A line [key = value] is read as that key and that value
    whatever blanks surround the line, the key and the value, and whatever
    quote characters enclose the value, provided the key is not empty, has
    no [=], does not start with [#], and key and value have no blank, and
    the value no quote, at either end.  A blank is a character for which
    [isspace] holds, whichever these are; all that is used of [isspace] is
    that it does not hold for the equals sign and the two quote
    characters. *)
Theorem parse_line_assignment (pad1 key pad2 pad3 q1 value q2 pad4 : list ascii) :
  is_space "="%char = false ->
  is_space double_quote = false -> is_space single_quote = false ->
  forallb is_space pad1 = true -> forallb is_space pad2 = true ->
  forallb is_space pad3 = true -> forallb is_space pad4 = true ->
  forallb is_quote q1 = true -> forallb is_quote q2 = true ->
  key <> [] -> "="%char ∉ key -> hd "="%char key <> "#"%char ->
  trimmed is_space key -> trimmed is_space value -> trimmed is_quote value ->
  parse_line is_space (assignment_line pad1 key pad2 pad3 q1 value q2 pad4)
  = Some (string_of_list_ascii key, string_of_list_ascii value).
Proof.
  intros Hse Hsd Hss Hp1 Hp2 Hp3 Hp4 Hq1 Hq2 Hk Heq Hhash Hkey [Hvh Hvt] Hvq.
  pose proof (fun q => quotes_head_ok q Hsd Hss) as quotes_ok.
  rewrite parse_line_unfold. cbv zeta.
  unfold assignment_line. rewrite list_ascii_of_string_of_list_ascii.
  set (core := q1 ++ value ++ q2).
  assert (Hcore : trimmed is_space core).
  { subst core. split.
    - apply head_ok_app; [now apply quotes_ok |].
      apply head_ok_app; [exact Hvh | now apply quotes_ok].
    - rewrite !rev_app_distr, <- app_assoc.
      apply head_ok_app; [apply quotes_ok, forallb_rev, Hq2 |].
      apply head_ok_app; [exact Hvt | apply quotes_ok, forallb_rev, Hq1]. }
  assert (HA : head_ok is_space (key ++ pad2)).
  { destruct key; [now elim Hk | apply Hkey]. }
  rewrite strip_chars_is_strip_by.
  rewrite (strip_by_keeps_prefix is_space pad1 (key ++ pad2) _ "="%char Hp1 HA)
    by (exact Hse || (destruct key; [now elim Hk | discriminate])).
  assert (Hhead : match (key ++ pad2) ++
                        "="%char :: rev (lstrip_by is_space (rev (pad3 ++ core ++ pad4)))
                  with c :: _ => Ascii.eqb c "#" | [] => false end = false).
  { destruct key as [|k0 key']; [now elim Hk |]. cbn [app hd] in *.
    now apply Ascii.eqb_neq. }
  rewrite Hhead, split_eq_first.
  - rewrite !strip_chars_is_strip_by.
    rewrite <- (app_nil_l (key ++ pad2)), (strip_by_pad is_space [] key pad2 eq_refl Hp2 Hkey).
    rewrite (strip_by_rstrip is_space pad3 core pad4 Hp3 Hp4 Hcore).
    subst core. now rewrite (strip_by_pad is_quote q1 value q2 Hq1 Hq2 Hvq).
  - rewrite elem_of_app.
    intros [H | H]; [now apply Heq | now apply (space_not_eq pad2 Hse Hp2)].
Qed.

Lemma file_values_acc (lines : list string) :
  forall acc : gmap string string,
    fold_left (fun values line =>
                 match parse_line is_space line with
                 | Some (key, value) => <[key := value]> values
                 | None => values
                 end) lines acc
    = file_values is_space lines ∪ acc.
Proof.
  unfold file_values. induction lines as [|line lines IH]; intros acc.
  - cbn. now rewrite (left_id_L ∅ (∪)).
  - cbn [fold_left]. rewrite IH, (IH (match parse_line is_space line with
                                         | Some (key, value) => <[key := value]> ∅
                                         | None => ∅ end)).
    destruct (parse_line is_space line) as [[key value]|].
    + rewrite <- (assoc_L (∪)). f_equal.
      now rewrite insert_union_singleton_l, insert_union_singleton_l, (right_id_L ∅ (∪)).
    + now rewrite (right_id_L ∅ (∪)).
Qed.

(** X26.  Reading is compositional and later lines win: the values of
    two runs of lines read one after the other are those of the second
    run, completed by those of the first for the keys the second does not
    set.  A line whose first character after the blanks is [#], or that
    has no [=], sets nothing, so dropping it changes nothing. *)
Theorem file_values_app (lines1 lines2 : list string) :
  file_values is_space (lines1 ++ lines2)
  = file_values is_space lines2 ∪ file_values is_space lines1
  /\ (forall line,
        parse_line is_space line = None ->
        file_values is_space (lines1 ++ line :: lines2)
        = file_values is_space (lines1 ++ lines2))
  /\ (forall line rest,
        strip_chars is_space (list_ascii_of_string line) = "#"%char :: rest ->
        parse_line is_space line = None)
  /\ (forall line,
        "="%char ∉ list_ascii_of_string line -> parse_line is_space line = None).
Proof.
  assert (Happ : forall l1 l2, file_values is_space (l1 ++ l2)
                               = file_values is_space l2 ∪ file_values is_space l1).
  { intros l1 l2. unfold file_values at 1. rewrite fold_left_app.
    fold (file_values is_space l1). apply file_values_acc. }
  split; [apply Happ |]. split; [| split].
  - intros line Hnone. rewrite !Happ. f_equal.
    change (line :: lines2) with ([line] ++ lines2). rewrite Happ.
    unfold file_values at 2. cbn [fold_left]. rewrite Hnone.
    now rewrite (right_id_L ∅ (∪)).
  - intros line rest H. rewrite parse_line_unfold. cbv zeta. now rewrite H.
  - intros line H. rewrite parse_line_unfold. cbv zeta.
    assert (Hsub : forall s, "="%char ∉ s -> split_eq s = None).
    { induction s as [|c s IH]; intros Hs; [reflexivity |].
      cbn [split_eq]. destruct (Ascii.eqb_spec c "=") as [-> | _].
      - exfalso. apply Hs. left.
      - rewrite IH; [reflexivity |]. intros Hin. apply Hs. now right. }
    assert (Hl : forall s, "="%char ∉ s -> "="%char ∉ lstrip is_space s).
    { induction s as [|c s IH]; intros Hs; [exact Hs |].
      cbn [lstrip]. destruct (is_space c); [| exact Hs].
      apply IH. intros Hin. apply Hs. now right. }
    rewrite Hsub; [now destruct (match _ with [] => false | _ => _ end) |].
    assert (Hr : forall s, "="%char ∉ s -> "="%char ∉ rev s).
    { intros s Hs Hin. apply Hs, list_elem_of_In, in_rev. now apply list_elem_of_In. }
    unfold strip_chars. now apply Hr, Hl, Hr, Hl.
Qed.

(** X27.  [_read_file] uses the first encoding under which the file
    decodes, and raises only when none does; with a last encoding that
    decodes every file it never raises. *)
Theorem read_file_first_decodable
    (failed : list (option (list string))) (lines : list string)
    (rest : list (option (list string))) :
  Forall (fun a => a = None) failed ->
  _read_file is_space (failed ++ Some lines :: rest) = Some (file_values is_space lines)
  /\ (failed <> [] -> _read_file is_space failed = None).
Proof.
  induction 1 as [|a failed -> _ [IH1 IH2]].
  - split; [reflexivity | congruence].
  - split.
    + cbn [app _read_file]. rewrite IH1. now destruct failed.
    + intros _. cbn [_read_file]. destruct failed as [|b failed]; [reflexivity |].
      apply IH2. discriminate.
Qed.

End EnvFacts.

(* ===================================================================== *)
(** * Instances                                                           *)
(* ===================================================================== *)

Section Instances.

Import Jwt Auth Dept DeptTree Filter FilterOps EnvFile.

Lemma verify_token_sound_witness :
  verify_token sign0 settings0 0 alice_refresh_token "refresh"
  = Verified {| p_user_id := 1; p_exp := refresh_exp settings0 0; p_token_type := "refresh" |}
  /\ 0 < timegm (0 + timedelta_days 7) * us_per_second.
Proof.
  split; [reflexivity |].
  apply (verify_token_sound sign0 settings0 0 "HS256" "signature"
           {| p_user_id := 1; p_exp := 0 + timedelta_days 7; p_token_type := "refresh" |}
           "refresh" "refresh"
           {| p_user_id := 1; p_exp := refresh_exp settings0 0; p_token_type := "refresh" |}
           eq_refl).
Defined.

Lemma refresh_token_expiry_boundary_witness :
  verify_token sign0 settings0 (refresh_exp settings0 1500000)
    (create_refresh_token sign0 settings0 1500000 1) "refresh"
  = RaiseExpiredSignatureError.
Proof.
  apply (proj1 (proj2 (proj2 (refresh_token_expiry_boundary sign0 settings0 1500000 1
                                (refresh_exp settings0 1500000))))).
  reflexivity.
Defined.

Lemma create_access_token_forces_kind_witness :
  verify_token sign0 settings0 0
    (create_access_token sign0 settings0
       {| p_user_id := 1; p_exp := 60000000; p_token_type := "refresh" |}) "refresh"
  = RaiseInvalidTokenError.
Proof.
  apply (proj2 (proj2 (create_access_token_forces_kind sign0 settings0
                         {| p_user_id := 1; p_exp := 60000000; p_token_type := "access" |}
                         "refresh" 0) eq_refl)).
Defined.

Lemma create_token_pair_same_second_witness :
  create_token_pair sign0 settings0 1500000 1500001 1
  = create_token_pair sign0 settings0 1999999 1000000 1.
Proof.
  apply (create_token_pair_same_second sign0 settings0 1500000 1500001 1999999 1000000 1);
    reflexivity.
Defined.

Lemma is_authed_sound_witness :
  is_authed sign0 settings0 alice_table 0 (Some alice_access_token) = Authed alice 1
  /\ alice_table !! 1 = Some alice.
Proof.
  split; [reflexivity |].
  refine (proj1 (proj1 (is_authed_sound sign0 settings0 alice_table 0
                          (Some alice_access_token) _) alice 1 eq_refl)).
  intros t [= <-].
  exists {| p_user_id := 1; p_exp := 0 + timedelta_minutes (60 * 4); p_token_type := "access" |},
         "access".
  reflexivity.
Defined.

Lemma refresh_access_token_outcomes_witness :
  unauthorized (refresh_access_token sign0 settings0 true alice_table 0 0 0
                  (Garbage "not a token")).
Proof.
  apply (proj2 (refresh_access_token_outcomes sign0 settings0 true alice_table 0 0 0
                  (Garbage "not a token"))).
  intros data H. discriminate H.
Defined.

Lemma refresh_keeps_old_token_witness :
  exists data',
    refresh_access_token sign0 settings0 true alice_table 5 5 5 alice_refresh_token
    = Success data'.
Proof.
  refine (proj2 (refresh_keeps_old_token sign0 settings0 true alice_table 0 1 1 1 1 5 5 5
                   alice _ _ eq_refl eq_refl eq_refl) _).
  - intros id u H. unfold alice_table in H.
    apply lookup_singleton_Some in H as [<- <-]. reflexivity.
  - reflexivity.
Defined.

Lemma create_dept_effect_witness :
  create_dept empty_db (child_dept "C" 9) = DoesNotExist.
Proof.
  apply (proj2 (proj1 (create_dept_effect empty_db (child_dept "C" 9)))).
  split; [discriminate | reflexivity].
Defined.

Lemma create_dept_keeps_consistent_witness :
  exists db', create_dept empty_db (root_dept "P") = Ok db' /\ closure_consistent db'.
Proof.
  eexists. split; [reflexivity |].
  apply (create_dept_keeps_consistent empty_db _ (root_dept "P") empty_db_consistent).
  reflexivity.
Defined.

Lemma update_dept_same_parent_witness :
  exists db',
    update_dept p_with_child_rows (move_to 1 0) = Ok db'
    /\ closure db' = closure p_with_child_rows.
Proof.
  eexists. split; [reflexivity |].
  apply (update_dept_same_parent p_with_child_rows _ (move_to 1 0) p_row
           eq_refl eq_refl eq_refl).
Defined.

Lemma update_dept_drops_descendant_rows_witness :
  exists db',
    update_dept p_with_child_rows (move_to 1 7) = Ok db'
    /\ row 1 3 1 ∈ closure p_with_child_rows
    /\ row 1 3 1 ∉ closure db'.
Proof.
  eexists. split; [reflexivity |].
  split; [apply list_elem_of_further, list_elem_of_here |].
  intros Hin.
  assert (Hne : parent_id p_row <> u_parent_id (move_to 1 7)) by discriminate.
  pose proof (proj1 (update_dept_drops_descendant_rows p_with_child_rows _ (move_to 1 7)
                       p_row eq_refl Hne eq_refl) _ Hin eq_refl) as H.
  discriminate H.
Defined.

Lemma delete_dept_twice_witness :
  exists db1,
    delete_dept p_with_child_rows 1 = Ok db1 /\ delete_dept db1 1 = Ok db1.
Proof.
  eexists. split; [reflexivity |].
  apply (delete_dept_twice p_with_child_rows). reflexivity.
Defined.

Lemma create_dept_under_deleted_witness :
  exists db1 db2,
    delete_dept p_with_child_rows 1 = Ok db1
    /\ create_dept db1 (child_dept "X" 1) = Ok db2
    /\ closure db2 = closure db1 ++ [row 4 4 0].
Proof.
  eexists. eexists. split; [reflexivity |]. split; [reflexivity |].
  apply (create_dept_under_deleted p_with_child_rows _ _ 1 (child_dept "X" 1)
           eq_refl eq_refl eq_refl).
Defined.

Lemma get_dept_tree_terminates_witness :
  is_Some (get_dept_tree 4 sample_rows).
Proof.
  apply (proj1 (get_dept_tree_terminates sample_rows)).
  - apply (bool_decide_unpack _). reflexivity.
  - apply (bool_decide_unpack _). reflexivity.
Defined.

Lemma get_dept_tree_shape_witness :
  exists ts,
    get_dept_tree 4 sample_rows = Some ts
    /\ map node_id ts = [1]
    /\ 5 ∉ map node_id (forest_nodes ts).
Proof.
  eexists. split; [reflexivity |].
  split.
  - apply (proj1 (get_dept_tree_shape sample_rows 4 _ eq_refl)).
  - apply (bool_decide_unpack _). reflexivity.
Defined.

Lemma forbidden_filter_built :
  built_from latin1_isspace latin1_lower forbidden_filter ["Forbidden"; "  "].
Proof. split; reflexivity. Qed.

Lemma forbidden_hits (pre post : string) :
  hits latin1_isspace latin1_lower ["Forbidden"; "  "] (pre +:+ "FORBIDDEN" +:+ post).
Proof.
  exists "Forbidden". split; [split; [apply list_elem_of_here | discriminate] |].
  exists (latin1_lower pre), (latin1_lower post). now rewrite !latin1_lower_app.
Qed.

Lemma filter_text_spec_witness :
  filter_text latin1_lower forbidden_filter "***" "a FORBIDDEN thing" = "***".
Proof.
  apply (proj1 (filter_text_spec latin1_isspace latin1_lower eq_refl latin1_lower_nonempty
                  forbidden_filter ["Forbidden"; "  "] "***" "a FORBIDDEN thing")
           forbidden_filter_built).
  apply (forbidden_hits "a " " thing").
Defined.

Lemma filter_streaming_chunk_fail_open_witness :
  filter_streaming_chunk latin1_isspace latin1_lower toy_loads forbidden_filter
    "event: FORBIDDEN"
  = Some "event: FORBIDDEN".
Proof.
  apply (proj1 (proj2 (proj2 (filter_streaming_chunk_fail_open latin1_isspace latin1_lower
                                toy_loads forbidden_filter "event: FORBIDDEN")))).
  reflexivity.
Defined.

Lemma filter_streaming_chunk_blocks_witness :
  filter_streaming_chunk latin1_isspace latin1_lower toy_loads forbidden_filter
    "data: a FORBIDDEN thing" = None
  /\ ~ hits latin1_isspace latin1_lower ["Forbidden"; "  "]
        (data_content latin1_isspace "data: not json").
Proof.
  split.
  - destruct (filter_streaming_chunk_blocks latin1_isspace latin1_lower eq_refl
                latin1_lower_nonempty toy_loads forbidden_filter ["Forbidden"; "  "]
                "data: a FORBIDDEN thing" forbidden_filter_built)
      as [_ H]; try discriminate; [reflexivity |].
    apply (H {[ "answer" := JString "a FORBIDDEN thing" ]} "a FORBIDDEN thing"
             eq_refl eq_refl).
    apply (forbidden_hits "a " " thing").
  - destruct (filter_streaming_chunk_blocks latin1_isspace latin1_lower eq_refl
                latin1_lower_nonempty toy_loads forbidden_filter ["Forbidden"; "  "]
                "data: not json" forbidden_filter_built)
      as [H _]; try discriminate; [reflexivity |].
    intros Hh. apply (proj2 (H eq_refl)) in Hh. vm_compute in Hh. discriminate Hh.
Defined.

Lemma reload_sensitive_words_spec_witness :
  fst (contains_sensitive_word latin1_lower
         (fst (reload_sensitive_words latin1_isspace latin1_lower
                 (__init__ latin1_isspace latin1_lower true ["Old"]) ["Forbidden"; "  "]))
         "a FORBIDDEN thing") = true.
Proof.
  apply (proj2 (proj2 (proj2 (reload_sensitive_words_spec latin1_isspace latin1_lower
                                eq_refl latin1_lower_nonempty
                                (__init__ latin1_isspace latin1_lower true ["Old"])
                                ["Forbidden"; "  "])) eq_refl)).
  apply (forbidden_hits "a " " thing").
Defined.

Lemma parse_line_assignment_witness :
  parse_line latin1_isspace
    (assignment_line (chars " ") (chars "SECRET_KEY") (chars " ") [nbsp; " "%char]
       [double_quote] (chars "a=b c") [double_quote; single_quote] [nbsp; Re.newline])
  = Some ("SECRET_KEY", "a=b c").
Proof.
  apply (parse_line_assignment latin1_isspace
           (chars " ") (chars "SECRET_KEY") (chars " ") [nbsp; " "%char]
           [double_quote] (chars "a=b c") [double_quote; single_quote] [nbsp; Re.newline]);
    try reflexivity; try discriminate; try (split; reflexivity).
  apply (bool_decide_unpack _). reflexivity.
Defined.

Lemma file_values_app_witness :
  parse_line latin1_isspace "  # SECRET_KEY=hidden" = None.
Proof.
  apply (proj1 (proj2 (proj2 (file_values_app latin1_isspace [] [])))
           "  # SECRET_KEY=hidden" (chars " SECRET_KEY=hidden")).
  reflexivity.
Defined.

Lemma read_file_first_decodable_witness :
  _read_file latin1_isspace [None; None; Some ["A=1"]; None]
  = Some (file_values latin1_isspace ["A=1"]).
Proof.
  apply (proj1 (read_file_first_decodable latin1_isspace [None; None] ["A=1"] [None]
                  ltac:(repeat constructor))).
Defined.

End Instances.
